(** * Whiteboard synchronisation server: state, event log and presence

    A shallow embedding of the two versions of the server kept in the
    repository ([server.js], and the later version that adds the
    [eventQueue] replay log), and the properties of the document store,
    the event log and the presence counter that they satisfy.

    The handlers are asynchronous JavaScript functions that talk to a
    Redis store and to a publish/subscribe service.  They are embedded as
    computations in a state-and-exception monad over a [world] holding
    the four Redis keys, the messages handed to the service, and a
    schedule saying which of the coming external calls fail.  One handler
    runs at a time: the interleaving of the [await] points of two
    handlers is not modelled.  The HTTP routes are those of the later
    version. *)

From stdpp Require Import base gmap strings list pretty.

Local Open Scope Z_scope.

(** ** JSON values

    What [JSON.parse] returns.  Numbers are the integers of magnitude at
    most 2^53, which JavaScript counts exactly.  A string is the UTF-8
    text of the JavaScript string.  [undefined] is not a JSON value: a
    JavaScript value is an [option json], with [None] for [undefined]. *)

#[warnings="-register-all"]
Inductive json : Type :=
| JNull
| JBool (b : bool)
| JNum (n : Z)
| JStr (s : string)
| JArr (xs : list json)
| JObj (fields : gmap string json).

Abbreviation value := (option json).
Abbreviation undefined := (@None json).

(** Exceptions the handlers can meet: those the language and the
    platform raise, and the rejection of a call to Redis or to the
    service. *)
Inductive exn : Type := TypeError | ReferenceError | RangeError | IOError.

(** [String(v)], as used when a value is a property key: an array joins
    its elements with commas, [null] elements printing as nothing; an
    object prints as [[object Object]], unless it has a member named
    [toString]: the member hides the method of that name, it is not a
    function, and the conversion raises.  A number, an integer of
    magnitude at most 2^53, prints in decimal. *)
Fixpoint ToString (v : json) : exn + string :=
  match v with
  | JNull => inr "null"
  | JBool true => inr "true"
  | JBool false => inr "false"
  | JNum n => inr (pretty n)
  | JStr s => inr s
  | JArr xs =>
      (fix join (l : list json) : exn + string :=
         match l with
         | [] => inr ""
         | x :: l' =>
             match (match x with JNull => inr "" | _ => ToString x end) with
             | inl err => inl err
             | inr e =>
                 match l' with
                 | [] => inr e
                 | _ :: _ =>
                     match join l' with
                     | inl err => inl err
                     | inr r => inr (e +:+ "," +:+ r)
                     end
                 end
             end
         end) xs
  | JObj o =>
      if bool_decide (is_Some (o !! "toString")) then inl TypeError
      else inr "[object Object]"
  end.

(** The key that [o[v]] uses. *)
Definition ToPropertyKey (v : value) : exn + string :=
  match v with
  | None => inr "undefined"
  | Some j => ToString j
  end.

(** [m.k] for [k] one of [name], [data]: no primitive and no array has a
    property of that name; [null.k] raises. *)
Definition get_field (k : string) (m : json) : exn + value :=
  match m with
  | JNull => inl TypeError
  | JObj fields => inr (fields !! k)
  | _ => inr undefined
  end.

(** [v === "s"] *)
Definition is_string (s : string) (v : value) : bool :=
  match v with
  | Some (JStr s') => bool_decide (s' = s)
  | _ => false
  end.

(** A byte [10xxxxxx], which continues a character of a UTF-8 text. *)
Definition is_continuation (c : Ascii.ascii) : bool :=
  match c with
  | Ascii.Ascii _ _ _ _ _ _ b6 b7 => b7 && negb b6
  end.

(** The characters (code points) of a UTF-8 text, each with its bytes: a
    character starts at every byte that does not continue one. *)
Fixpoint code_points (cs : list Ascii.ascii) : list string :=
  match cs with
  | [] => []
  | c :: cs' =>
      let ps := code_points cs' in
      match head cs', ps with
      | Some c', p :: ps' =>
          if is_continuation c' then String c p :: ps'
          else String c EmptyString :: ps
      | _, _ => String c EmptyString :: ps
      end
  end.

(** [const [a, b] = v]: an array gives its first two elements, a string
    its first two characters, whatever is missing being [undefined];
    anything else is not iterable. *)
Definition destructure2 (v : value) : exn + (value * value) :=
  match v with
  | Some (JArr xs) => inr (xs !! 0%nat, xs !! 1%nat)
  | Some (JStr s) =>
      let cs := JStr <$> code_points (String.list_ascii_of_string s) in
      inr (cs !! 0%nat, cs !! 1%nat)
  | _ => inl TypeError
  end.

(** An object in memory: its own enumerable properties, any of which may
    hold [undefined]. *)
Abbreviation object := (gmap string value).

(** [JSON.parse(text || "{}")] for the text under a key, [None] when the
    key is absent. *)
Definition JSON_parse_or_empty (stored : option (gmap string json)) : object :=
  Some <$> default ∅ stored.

(** [JSON.stringify(o)]: a property holding [undefined] is left out. *)
Definition JSON_stringify (o : object) : gmap string json := omap id o.

(** [o[k] = v] on an object whose prototype is [Object.prototype].  The
    property is created or overwritten, with one exception: [__proto__]
    is an accessor inherited from the prototype, so that assigning to it
    calls the setter of the prototype and creates no own property,
    unless the object has one of its own already (as [JSON.parse] makes
    of a text that has such a member). *)
Definition js_assign (k : string) (v : value) (o : object) : object :=
  if bool_decide (k = "__proto__" ∧ o !! k = None) then o else <[k := v]> o.

(** [delete o[k]] *)
Definition js_delete (k : string) (o : object) : object := delete k o.

(** ** The world outside the handlers *)

(** Where the service delivers a message: to every connection of a
    group, or to the connections of one user. *)
Inductive target : Type :=
| ToGroup (group : string)
| ToUser (userId : string).

(** The Redis keys the server uses, with the texts they hold replaced by
    the values the texts denote, and what has been handed to the service
    so far, oldest first.  A key that was never set, or was deleted, is
    [None]; for the counter [users], which is only ever incremented,
    decremented and set, an absent key reads as 0, as [INCR] and [DECR]
    take it, and the counter stays far from the 64 bits of Redis.
    [faults] is consumed by the external calls, one entry per call: the
    call is rejected where the entry is [true], and once the schedule is
    used up no call is rejected. *)
Record world : Type := World {
  shapes : option (gmap string json);
  background : option json;
  users : Z;
  eventQueue : list json;
  outbox : list (target * json);
  faults : list bool
}.

Definition initial : world :=
  {| shapes := None; background := None; users := 0;
     eventQueue := []; outbox := []; faults := [] |}.

Definition set_shapes (v : option (gmap string json)) (w : world) : world :=
  {| shapes := v; background := background w; users := users w;
     eventQueue := eventQueue w; outbox := outbox w; faults := faults w |}.

Definition set_background (v : option json) (w : world) : world :=
  {| shapes := shapes w; background := v; users := users w;
     eventQueue := eventQueue w; outbox := outbox w; faults := faults w |}.

Definition set_users (n : Z) (w : world) : world :=
  {| shapes := shapes w; background := background w; users := n;
     eventQueue := eventQueue w; outbox := outbox w; faults := faults w |}.

Definition set_eventQueue (l : list json) (w : world) : world :=
  {| shapes := shapes w; background := background w; users := users w;
     eventQueue := l; outbox := outbox w; faults := faults w |}.

Definition set_outbox (l : list (target * json)) (w : world) : world :=
  {| shapes := shapes w; background := background w; users := users w;
     eventQueue := eventQueue w; outbox := l; faults := faults w |}.

Definition set_faults (l : list bool) (w : world) : world :=
  {| shapes := shapes w; background := background w; users := users w;
     eventQueue := eventQueue w; outbox := outbox w; faults := l |}.

(** ** The monad of the handlers *)

Definition M (A : Type) : Type := world → (exn + A) * world.

#[global] Instance M_ret : MRet M := λ A a w, (inr a, w).

#[global] Instance M_bind : MBind M := λ A B f m w,
  match m w with
  | (inl e, w') => (inl e, w')
  | (inr a, w') => f a w'
  end.

Definition throw {A : Type} (e : exn) : M A := λ w, (inl e, w).

(** A pure step that may raise. *)
Definition lift {A : Type} (r : exn + A) : M A := λ w, (r, w).

(** [try { body } catch (err) { handler }] *)
Definition try_catch {A : Type} (body : M A) (handler : exn → M A) : M A :=
  λ w, match body w with
       | (inl e, w') => handler e w'
       | (inr a, w') => (inr a, w')
       end.

Definition get_world : M world := λ w, (inr w, w).
Definition modify (f : world → world) : M unit := λ w, (inr (), f w).

(** The start of every external call: take the next entry of the
    schedule and raise if it says so.  A rejected call has no effect. *)
Definition call : M unit := λ w,
  match faults w with
  | [] => (inr (), w)
  | false :: fs => (inr (), set_faults fs w)
  | true :: fs => (inl IOError, set_faults fs w)
  end.

(** *** Redis *)

(** The elements of [l] from index [start] to index [stop], both
    included, a negative index counting from the end: the range of
    [LRANGE] and [LTRIM]. *)
Definition redis_range {A : Type} (start stop : Z) (l : list A) : list A :=
  let len := Z.of_nat (length l) in
  let s := if bool_decide (start < 0) then Z.max 0 (len + start) else start in
  let e := Z.min (if bool_decide (stop < 0) then len + stop else stop) (len - 1) in
  if bool_decide (e < s) then []
  else take (Z.to_nat (e - s + 1)) (drop (Z.to_nat s) l).

Definition redis_incr_users : M Z :=
  call;; w ← get_world;
  let n := users w + 1 in
  modify (set_users n);; mret n.

Definition redis_decr_users : M Z :=
  call;; w ← get_world;
  let n := users w - 1 in
  modify (set_users n);; mret n.

Definition redis_set_users (n : Z) : M unit :=
  call;; modify (set_users n).

Definition redis_get_shapes : M (option (gmap string json)) :=
  call;; w ← get_world; mret (shapes w).

Definition redis_set_shapes (v : gmap string json) : M unit :=
  call;; modify (set_shapes (Some v)).

Definition redis_del_shapes : M unit :=
  call;; modify (set_shapes None).

Definition redis_get_background : M (option json) :=
  call;; w ← get_world; mret (background w).

Definition redis_del_background : M unit :=
  call;; modify (set_background None).

Definition redis_lpush_eventQueue (v : json) : M unit :=
  call;; modify (λ w, set_eventQueue (v :: eventQueue w) w).

Definition redis_ltrim_eventQueue (start stop : Z) : M unit :=
  call;; modify (λ w, set_eventQueue (redis_range start stop (eventQueue w)) w).

Definition redis_lrange_eventQueue (start stop : Z) : M (list json) :=
  call;; w ← get_world; mret (redis_range start stop (eventQueue w)).

(** *** The publish/subscribe service *)

Definition send (t : target) (m : json) : M unit :=
  call;; modify (λ w, set_outbox (outbox w ++ [(t, m)]) w).

(** [serviceClient.group(g).sendToAll(m)] *)
Definition sendToAll (g : string) (m : json) : M unit := send (ToGroup g) m.

(** [serviceClient.sendToUser(userId, m)] *)
Definition sendToUser (userId : string) (m : json) : M unit := send (ToUser userId) m.

(** What a handler of user events answers with [res.success()]. *)
Inductive response : Type := Success.

(** [res.fail()].  The handlers call it without a status code, and a
    response cannot be written with a status that is not a number: the
    call raises.  It is made in the [catch] block, so that the error
    leaves the handler and nothing is answered. *)
Definition res_fail : M response := throw RangeError.

(** The messages the server itself builds. *)
Definition updateUser (n : Z) : json :=
  JObj {[ "name" := JStr "updateUser"; "data" := JNum n ]}.

Definition syncState (sh : gmap string json) (bg : json) : json :=
  JObj {[ "name" := JStr "syncState";
          "data" := JObj {[ "shapes" := JObj sh; "background" := bg ]} ]}.

(** [for (const x of xs) { await body(x) }] *)
Fixpoint for_of {A : Type} (xs : list A) (body : A → M unit) : M unit :=
  match xs with
  | [] => mret ()
  | x :: xs' => body x;; for_of xs' body
  end.

(** [message.name === s] *)
Definition name_is (s : string) (message : json) : M bool :=
  name ← lift (get_field "name" message); mret (is_string s name).

(** ** The version with the replay log *)

Module Part000.

(** Helper function to replay missed events for newly connected users *)
Definition replayMissedEvents (userId : string) : M unit :=
  events ← redis_lrange_eventQueue 0 (-1);
  for_of events (λ event, sendToUser userId event).

Definition onConnected (userId : string) : M unit :=
  try_catch
    (users ← redis_incr_users;
     sendToAll "draw" (updateUser users);;
     shapes ← redis_get_shapes;
     background ← redis_get_background;
     sendToUser userId
       (syncState (default ∅ shapes) (default (JObj ∅) background));;
     replayMissedEvents userId)
    (λ _, mret ()).

Definition onDisconnected : M unit :=
  try_catch
    (n ← redis_decr_users;
     let users := Z.max 0 n in
     redis_set_users users;;
     sendToAll "draw" (updateUser users))
    (λ _, mret ()).

Definition handleUserEvent (message : json) : M response :=
  try_catch
    (redis_lpush_eventQueue message;;
     redis_ltrim_eventQueue 0 99;;
     ((is_add ← name_is "addShape" message;
      if (is_add : bool) then
        data ← lift (get_field "data" message);
        '(id, shape) ← lift (destructure2 data);
        stored ← redis_get_shapes;
        key ← lift (ToPropertyKey id);
        let shapes := js_assign key shape (JSON_parse_or_empty stored) in
        redis_set_shapes (JSON_stringify shapes)
      else
        is_remove ← name_is "removeShape" message;
        if (is_remove : bool) then
          id ← lift (get_field "data" message);
          stored ← redis_get_shapes;
          key ← lift (ToPropertyKey id);
          let shapes := js_delete key (JSON_parse_or_empty stored) in
          redis_set_shapes (JSON_stringify shapes)
        else
          is_clear ← name_is "clear" message;
          if (is_clear : bool) then
            redis_del_shapes;;
            redis_del_background
          else mret ()) : M unit);;
     sendToAll "draw" message;;
     mret Success)
    (λ _, res_fail).

End Part000.

(** ** [server.js] *)

Module ServerJs.

(** [userId] is not declared in this version: evaluating the arguments
    of [sendToUser] raises before anything is sent. *)
Definition onConnected : M unit :=
  try_catch
    (users ← redis_incr_users;
     sendToAll "draw" (updateUser users);;
     shapes ← redis_get_shapes;
     background ← redis_get_background;
     throw ReferenceError)
    (λ _, mret ()).

Definition onDisconnected : M unit :=
  try_catch
    (n ← redis_decr_users;
     users ← (if bool_decide (n < 0)
              then redis_set_users 0;; mret 0
              else mret n);
     sendToAll "draw" (updateUser users))
    (λ _, mret ()).

Definition handleUserEvent (message : json) : M response :=
  try_catch
    (name ← lift (get_field "name" message);
     ((if is_string "addShape" name then
        data ← lift (get_field "data" message);
        '(id, shape) ← lift (destructure2 data);
        stored ← redis_get_shapes;
        key ← lift (ToPropertyKey id);
        let shapes := js_assign key shape (JSON_parse_or_empty stored) in
        redis_set_shapes (JSON_stringify shapes)
      else if is_string "removeShape" name then
        id ← lift (get_field "data" message);
        stored ← redis_get_shapes;
        key ← lift (ToPropertyKey id);
        let shapes := js_delete key (JSON_parse_or_empty stored) in
        redis_set_shapes (JSON_stringify shapes)
      else if is_string "clear" name then
        redis_del_shapes;;
        redis_del_background
      else mret ()) : M unit);;
     mret Success)
    (λ _, res_fail).

End ServerJs.

(** ** Running handlers one after the other *)

(** The world after the handler [h] has served the requests [xs], in
    that order, each run starting where the previous one stopped. *)
Definition run_all {A R : Type} (h : A → M R) (xs : list A) (w : world) : world :=
  foldl (λ w x, (h x w).2) w xs.

(** Connections coming and going. *)
Inductive presence_op : Type :=
| Connect (userId : string)
| Disconnect.

Definition Part000_presence (op : presence_op) : M unit :=
  match op with
  | Connect userId => Part000.onConnected userId
  | Disconnect => Part000.onDisconnected
  end.

Definition ServerJs_presence (op : presence_op) : M unit :=
  match op with
  | Connect _ => ServerJs.onConnected
  | Disconnect => ServerJs.onDisconnected
  end.

Fixpoint connects (ops : list presence_op) : nat :=
  match ops with
  | [] => 0
  | Connect _ :: ops' => S (connects ops')
  | Disconnect :: ops' => connects ops'
  end.

Fixpoint disconnects (ops : list presence_op) : nat :=
  match ops with
  | [] => 0
  | Connect _ :: ops' => disconnects ops'
  | Disconnect :: ops' => S (disconnects ops')
  end.

(** ** The document and the events, as clients see them *)

(** What the server reads back as the document: the text under each key,
    or [{}] when the key is absent. *)
Definition current_shapes (w : world) : gmap string json := default ∅ (shapes w).
Definition current_background (w : world) : json := default (JObj ∅) (background w).

(** The name of an event, when it has one: [message.name], if that is a
    string. *)
Definition event_name (m : json) : option string :=
  match m with
  | JObj fields =>
      match fields !! "name" with
      | Some (JStr s) => Some s
      | _ => None
      end
  | _ => None
  end.

(** The three edit events, with the payloads the handlers take apart. *)
Definition addShape (id : string) (shape : json) : json :=
  JObj {[ "name" := JStr "addShape"; "data" := JArr [JStr id; shape] ]}.

Definition removeShape (id : string) : json :=
  JObj {[ "name" := JStr "removeShape"; "data" := JStr id ]}.

Definition clear : json := JObj {[ "name" := JStr "clear" ]}.

Inductive edit : Type :=
| AddShape (id : string) (shape : json)
| RemoveShape (id : string)
| Clear.

Definition message_of (e : edit) : json :=
  match e with
  | AddShape id shape => addShape id shape
  | RemoveShape id => removeShape id
  | Clear => clear
  end.

(** The reference map of the specification: insert on [addShape], delete
    on [removeShape], empty on [clear]. *)
Definition reference_apply (m : gmap string json) (e : edit) : gmap string json :=
  match e with
  | AddShape id shape => <[id := shape]> m
  | RemoveShape id => delete id m
  | Clear => ∅
  end.

Definition reference_run (es : list edit) : gmap string json :=
  foldl reference_apply ∅ es.

(** The identifiers that [addShape] events of [es] insert. *)
Definition added_ids (es : list edit) : list string :=
  omap (λ e, match e with AddShape id _ => Some id | _ => None end) es.


(** ** What a computation leaves alone

    [keeps R c]: the world in which [c] stops, normally or not, is
    related by [R] to the one in which it started. *)

Definition keeps (R : relation world) {A : Type} (c : M A) : Prop :=
  ∀ w, R w (c w).2.

(** The relations that are kept. *)

Definition same_document (w w' : world) : Prop :=
  shapes w' = shapes w ∧ background w' = background w ∧ users w' = users w.

Definition same_background (w w' : world) : Prop := background w' = background w.

Definition same_queue (w w' : world) : Prop := eventQueue w' = eventQueue w.

Definition stays_quiet (w w' : world) : Prop := faults w = [] → faults w' = [].

Definition stays_first (m : json) (w w' : world) : Prop :=
  head (eventQueue w) = Some m → head (eventQueue w') = Some m.


(** The counter of connections after one more connection or one more
    disconnection, as the handlers leave it. *)
Definition presence_step (n : Z) (op : presence_op) : Z :=
  match op with
  | Connect _ => n + 1
  | Disconnect => Z.max 0 (n - 1)
  end.

(** Connections less disconnections. *)
Definition excess (ops : list presence_op) : Z :=
  Z.of_nat (connects ops) - Z.of_nat (disconnects ops).

(** The document: the shapes as they are read back, and the key of the
    background. *)
Definition document (w : world) : gmap string json * option json :=
  (current_shapes w, background w).

(** [accounted c]: the entries of the schedule that [c] consumes are a
    prefix of it, and [c] returns normally only if none of them rejected
    a call. *)
Definition accounted {A : Type} (c : M A) : Prop :=
  ∀ w, ∃ pre,
    faults w = pre ++ faults (c w).2
    ∧ (∀ a, (c w).1 = inr a → Forall (λ b, b = false) pre).

(** The retained events, as the replay reads them:
    [lrange(EVENT_QUEUE_KEY, 0, -1)]. *)
Definition recent (w : world) : list json := redis_range 0 (-1) (eventQueue w).

(** ** The HTTP routes of the version with the replay log

    What a route answers is the last call it makes on [res]; headers set
    before a failure are not kept track of. *)
Inductive http_response : Type :=
| ResJson (body : json)
| ResFile (contentType : value) (body : list Byte.byte)
| ResStatus (code : Z) (body : option string)
| ResEnd.

(** The file of an upload, [req.files.file]: its bytes and its type. *)
Record upload : Type := Upload {
  file_data : list Byte.byte;
  file_mimetype : string
}.

Definition json_of_byte (b : Byte.byte) : json := JNum (Z.of_N (Byte.to_N b)).

(** What [JSON.stringify] writes for a [Buffer]. *)
Definition Buffer_toJSON (data : list Byte.byte) : json :=
  JObj {[ "type" := JStr "Buffer"; "data" := JArr (json_of_byte <$> data) ]}.

Definition redis_set_background (v : json) : M unit :=
  call;; modify (set_background (Some v)).

Definition updateBackground (id : string) : json :=
  JObj {[ "name" := JStr "updateBackground"; "data" := JStr id ]}.

(** [v.k] for a value that may be [undefined], [k] being the name of a
    member of the stored background ([id], [data], [contentType]), which
    no primitive and no array has. *)
Definition get_property (k : string) (v : value) : exn + value :=
  match v with
  | None => inl TypeError
  | Some j => get_field k j
  end.

(** The background as it is stored: [JSON.stringify] of the record made
    by the upload. *)
Definition background_record (id : string) (f : upload) : json :=
  JObj {[ "id" := JStr id;
          "data" := Buffer_toJSON (file_data f);
          "contentType" := JStr (file_mimetype f) ]}.

Module Routes.

(** [GET /negotiate]: [url] is the address the service answers with. *)
Definition negotiate (url : string) : M http_response :=
  try_catch
    (call;;
     mret (ResJson (JObj {[ "url" := JStr url ]})))
    (λ _, mret (ResStatus 500 (Some "Failed to negotiate."))).

(** [GET /diagram] *)
Definition diagram : M http_response :=
  try_catch
    (shapes ← redis_get_shapes;
     background ← redis_get_background;
     mret (ResJson (JObj {[ "shapes" := JObj (default ∅ shapes);
                            "background" := default (JObj ∅) background ]})))
    (λ _, mret (ResStatus 500 (Some "Failed to retrieve diagram."))).

(** [POST /background/upload]: [id] is the identifier drawn with
    [Math.random], [file] is [req.files.file], [None] when the request
    carries no such file. *)
Definition uploadBackground (id : string) (file : option upload) : M http_response :=
  try_catch
    (f ← lift (match file with
               | None => inl TypeError
               | Some f => inr f
               end);
     let background := background_record id f in
     redis_set_background background;;
     sendToAll "draw" (updateBackground id);;
     mret ResEnd)
    (λ _, mret (ResStatus 500 (Some "Failed to upload background."))).

Section getBackground.

(** [Buffer.from] and [res.type] belong to Node and to Express: they are
    taken as they come, the first giving the bytes or raising, the second
    accepting the type or raising. *)
Variable Buffer_from : value → exn + list Byte.byte.
Variable res_type : value → exn + unit.

(** [GET /background/:id] *)
Definition getBackground (id : string) : M http_response :=
  try_catch
    (stored ← redis_get_background;
     let background := default (JObj ∅) stored in
     background_id ← lift (get_field "id" background);
     if is_string id background_id then
       contentType ← lift (get_field "contentType" background);
       lift (res_type contentType);;
       data ← lift (get_field "data" background);
       bytes ← lift (get_property "data" data);
       buffer ← lift (Buffer_from bytes);
       mret (ResFile contentType buffer)
     else mret (ResStatus 404 None))
    (λ _, mret (ResStatus 500 (Some "Failed to retrieve background."))).

End getBackground.

End Routes.

(** A [Buffer.from] for what the uploads store: an array of numbers gives
    the bytes they are modulo 256; nothing else is accepted. *)
Definition Buffer_from_numbers (v : value) : exn + list Byte.byte :=
  match v with
  | Some (JArr xs) =>
      match mapM (λ x, match x with
                       | JNum n => Byte.of_N (Z.to_N (n `mod` 256))
                       | _ => None
                       end) xs with
      | Some bs => inr bs
      | None => inl TypeError
      end
  | _ => inl TypeError
  end.

(** A [res.type] that accepts the strings. *)
Definition res_type_strings (v : value) : exn + unit :=
  match v with
  | Some (JStr _) => inr ()
  | _ => inl TypeError
  end.

(** Everything but the schedule is as it was. *)
Definition same_state (w w' : world) : Prop :=
  shapes w' = shapes w ∧ background w' = background w ∧ users w' = users w
  ∧ eventQueue w' = eventQueue w ∧ outbox w' = outbox w.

Definition same_outbox (w w' : world) : Prop := outbox w' = outbox w.

(** The shapes, the background and the log are as they were. *)
Definition same_board (w w' : world) : Prop :=
  shapes w' = shapes w ∧ background w' = background w
  ∧ eventQueue w' = eventQueue w.

(** The shapes, the counter and the log are as they were. *)
Definition same_but_background (w w' : world) : Prop :=
  shapes w' = shapes w ∧ users w' = users w ∧ eventQueue w' = eventQueue w.

(** [outcome c w Q]: run from [w], the computation [c] stops with a
    result and in a world that satisfy [Q]. *)
Definition outcome {A : Type} (c : M A) (w : world)
    (Q : exn + A → world → Prop) : Prop :=
  Q (c w).1 (c w).2.

(** A background that is not set stays so. *)
Definition stays_unset (w w' : world) : Prop :=
  background w = None → background w' = None.

(** The identifier an edit is about, if it is about one. *)
Definition edit_id (e : edit) : option string :=
  match e with
  | AddShape id _ => Some id
  | RemoveShape id => Some id
  | Clear => None
  end.

(** * The embedding at work *)

Example ToString_array :
  ToString (JArr [JNum 1; JNull; JArr [JStr "a"; JBool true]; JNum (-3)])
  = inr "1,,a,true,-3".
Proof. reflexivity. Qed.

Example ToString_object :
  ToString (JObj {[ "valueOf" := JNum 1 ]}) = inr "[object Object]"
  ∧ ToString (JArr [JStr "a"; JObj {[ "toString" := JNum 1 ]}]) = inl TypeError.
Proof. split; by vm_compute. Qed.

Example ToPropertyKey_undefined : ToPropertyKey undefined = inr "undefined".
Proof. reflexivity. Qed.

Example destructure2_pair :
  destructure2 (Some (JArr [JStr "a"; JNum 1; JNum 2])) = inr (Some (JStr "a"), Some (JNum 1)).
Proof. reflexivity. Qed.

Example destructure2_short :
  destructure2 (Some (JArr [JStr "a"])) = inr (Some (JStr "a"), undefined).
Proof. reflexivity. Qed.

Example destructure2_string :
  destructure2 (Some (JStr "xyz")) = inr (Some (JStr "x"), Some (JStr "y")).
Proof. reflexivity. Qed.

Example destructure2_two_bytes :
  let e_acute := String (Ascii.ascii_of_nat 195) (String (Ascii.ascii_of_nat 169) "") in
  destructure2 (Some (JStr (e_acute +:+ "a")))
  = inr (Some (JStr e_acute), Some (JStr "a")).
Proof. reflexivity. Qed.

Example destructure2_undefined : destructure2 undefined = inl TypeError.
Proof. reflexivity. Qed.

Example redis_range_trim :
  redis_range 0 99 (seq 0 150) = seq 0 100.
Proof. reflexivity. Qed.

Example redis_range_tail : redis_range (-2) (-1) [1; 2; 3; 4] = [3; 4].
Proof. reflexivity. Qed.

Example redis_range_empty : redis_range 3 1 [1; 2; 3; 4] = [].
Proof. reflexivity. Qed.

Example addShape_stored :
  shapes (Part000.handleUserEvent (addShape "a" (JNum 1)) initial).2
  = Some {[ "a" := JNum 1 ]}.
Proof. by vm_compute. Qed.

(** An [addShape] without a shape: the property is assigned [undefined]
    and is not written back. *)
Example addShape_without_shape :
  let m := JObj {[ "name" := JStr "addShape"; "data" := JArr [JStr "a"] ]} in
  let w := set_shapes (Some {[ "a" := JNum 1; "b" := JNum 2 ]}) initial in
  Part000.handleUserEvent m w
  = (inr Success,
     set_outbox [(ToGroup "draw", m)]
       (set_eventQueue [m] (set_shapes (Some {[ "b" := JNum 2 ]}) initial))).
Proof. by vm_compute. Qed.

(** An [addShape] without a payload is not answered: the handler raises,
    after it has logged the event. *)
Example addShape_without_data :
  let m := JObj {[ "name" := JStr "addShape" ]} in
  Part000.handleUserEvent m initial = (inl RangeError, set_eventQueue [m] initial)
  ∧ ServerJs.handleUserEvent m initial = (inl RangeError, initial).
Proof. by vm_compute. Qed.

Example first_connection :
  Part000.onConnected "u" initial
  = (inr (),
     set_outbox [(ToGroup "draw", updateUser 1);
                 (ToUser "u", syncState ∅ (JObj ∅))]
       (set_users 1 initial)).
Proof. by vm_compute. Qed.

(** In [server.js] the snapshot is never sent. *)
Example first_connection_server_js :
  ServerJs.onConnected initial
  = (inr (), set_outbox [(ToGroup "draw", updateUser 1)] (set_users 1 initial)).
Proof. by vm_compute. Qed.

(** * Properties *)

(** ** Ranges of a Redis list *)

Lemma redis_range_0_99 {A : Type} (l : list A) : redis_range 0 99 l = take 100 l.
Proof.
  unfold redis_range. cbv zeta.
  rewrite (bool_decide_eq_false_2 (0 < 0)) by lia.
  rewrite (bool_decide_eq_false_2 (99 < 0)) by lia.
  case_bool_decide as Hlen.
  - destruct l; [done | simpl in Hlen; lia].
  - rewrite drop_0.
    destruct (decide (100 ≤ length l)%nat) as [Hge | Hlt].
    + f_equal. lia.
    + replace (Z.to_nat (_ - 0 + 1)) with (length l) by lia.
      rewrite firstn_all. symmetry. apply take_ge. lia.
Qed.

Lemma redis_range_all {A : Type} (l : list A) : redis_range 0 (-1) l = l.
Proof.
  unfold redis_range. cbv zeta.
  rewrite (bool_decide_eq_false_2 (0 < 0)) by lia.
  rewrite (bool_decide_eq_true_2 (-1 < 0)) by lia.
  case_bool_decide as Hlen.
  - destruct l; [done | simpl in Hlen; lia].
  - rewrite drop_0.
    replace (Z.to_nat (_ - 0 + 1)) with (length l) by lia.
    apply firstn_all.
Qed.

(** ** Objects through [JSON.parse] and [JSON.stringify] *)

Lemma stringify_parse (stored : option (gmap string json)) :
  JSON_stringify (JSON_parse_or_empty stored) = default ∅ stored.
Proof.
  apply map_eq; intros k. unfold JSON_stringify, JSON_parse_or_empty.
  rewrite lookup_omap, lookup_fmap. by destruct (default ∅ stored !! k).
Qed.

Lemma stringify_delete (k : string) (stored : option (gmap string json)) :
  JSON_stringify (js_delete k (JSON_parse_or_empty stored))
  = delete k (default ∅ stored).
Proof.
  apply map_eq; intros k'. unfold JSON_stringify, js_delete, JSON_parse_or_empty.
  rewrite lookup_omap. destruct (decide (k = k')) as [-> | Hne].
  - by rewrite !lookup_delete_eq.
  - rewrite !lookup_delete_ne, lookup_fmap by done.
    by destruct (default ∅ stored !! k').
Qed.

Lemma stringify_assign (k : string) (v : json) (stored : option (gmap string json)) :
  k ≠ "__proto__" →
  JSON_stringify (js_assign k (Some v) (JSON_parse_or_empty stored))
  = <[k := v]> (default ∅ stored).
Proof.
  intros Hk. apply map_eq; intros k'.
  unfold JSON_stringify, js_assign, JSON_parse_or_empty.
  rewrite bool_decide_eq_false_2 by (by intros [? _]).
  rewrite lookup_omap. destruct (decide (k = k')) as [-> | Hne].
  - by rewrite !lookup_insert_eq.
  - rewrite !lookup_insert_ne, lookup_fmap by done.
    by destruct (default ∅ stored !! k').
Qed.

Lemma stringify_assign_undefined (k : string) (stored : option (gmap string json)) :
  k ≠ "__proto__" →
  JSON_stringify (js_assign k undefined (JSON_parse_or_empty stored))
  = delete k (default ∅ stored).
Proof.
  intros Hk. apply map_eq; intros k'.
  unfold JSON_stringify, js_assign, JSON_parse_or_empty.
  rewrite bool_decide_eq_false_2 by (by intros [? _]).
  rewrite lookup_omap. destruct (decide (k = k')) as [-> | Hne].
  - by rewrite lookup_insert_eq, lookup_delete_eq.
  - rewrite lookup_insert_ne, lookup_delete_ne, lookup_fmap by done.
    by destruct (default ∅ stored !! k').
Qed.

Lemma stringify_assign_proto (v : value) (stored : option (gmap string json)) :
  default ∅ stored !! "__proto__" = None →
  JSON_stringify (js_assign "__proto__" v (JSON_parse_or_empty stored))
  = default ∅ stored.
Proof.
  intros Hnone. unfold js_assign. rewrite bool_decide_eq_true_2.
  - apply stringify_parse.
  - split; [done|]. unfold JSON_parse_or_empty. by rewrite lookup_fmap, Hnone.
Qed.

Lemma stringify_assign_own (k : string) (v : json) (stored : option (gmap string json)) :
  is_Some (default ∅ stored !! k) →
  JSON_stringify (js_assign k (Some v) (JSON_parse_or_empty stored))
  = <[k := v]> (default ∅ stored).
Proof.
  intros [v' Hsome]. apply map_eq; intros k'.
  unfold JSON_stringify, js_assign, JSON_parse_or_empty.
  rewrite bool_decide_eq_false_2
    by (intros [_ Hnone]; by rewrite lookup_fmap, Hsome in Hnone).
  rewrite lookup_omap. destruct (decide (k = k')) as [-> | Hne].
  - by rewrite !lookup_insert_eq.
  - rewrite !lookup_insert_ne, lookup_fmap by done.
    by destruct (default ∅ stored !! k').
Qed.

(** ** Running the monad *)

(** Unfolds the monad, the external calls and the fields of the world;
    finite maps, ranges and messages stay folded. *)
Ltac exec :=
  cbv beta iota zeta delta
    [mbind M_bind mret M_ret try_catch throw res_fail lift get_world modify call
     redis_incr_users redis_decr_users redis_set_users
     redis_get_shapes redis_set_shapes redis_del_shapes
     redis_get_background redis_del_background
     redis_lpush_eventQueue redis_ltrim_eventQueue redis_lrange_eventQueue
     send sendToAll sendToUser
     set_shapes set_background set_users set_eventQueue set_outbox set_faults
     shapes background users eventQueue outbox faults fst snd].

(** Opens a world whose schedule is known to be empty. *)
Ltac quiet w H :=
  destruct w as [?sh ?bg ?u ?q ?o ?f]; simpl in H; subst.

(** ** The name of an event and the dispatch on it *)

Lemma event_name_get_field (m : json) (s : string) :
  event_name m = Some s → get_field "name" m = inr (Some (JStr s)).
Proof.
  destruct m as [| | | | |fields]; try done. simpl.
  destruct (fields !! "name") as [[]|]; try done. by intros [= ->].
Qed.

Lemma name_is_event_name (s : string) (m : json) :
  m ≠ JNull → name_is s m = mret (bool_decide (event_name m = Some s)).
Proof.
  intros Hm. unfold name_is.
  destruct m as [| | | | |fields]; try done. simpl.
  destruct (fields !! "name") as [[| | |s'| |]|]; try done.
  exec. simpl.
  rewrite (bool_decide_ext (s' = s) (Some s' = Some s)); [done|].
  split; [by intros -> | by intros [= ->]].
Qed.

Lemma name_is_null (s : string) : name_is s JNull = throw TypeError.
Proof. done. Qed.

Lemma event_name_not_null (m : json) (s : string) : event_name m = Some s → m ≠ JNull.
Proof. by destruct m. Qed.

Lemma event_name_addShape id shape : event_name (addShape id shape) = Some "addShape".
Proof. done. Qed.

Lemma event_name_removeShape id : event_name (removeShape id) = Some "removeShape".
Proof. done. Qed.

Lemma event_name_clear : event_name clear = Some "clear".
Proof. done. Qed.

(** ** The handlers when no external call fails *)

(** Decides the three tests of the dispatch once the name is known. *)
Ltac dispatch Hname :=
  rewrite !name_is_event_name
    by first [assumption | eapply event_name_not_null; eassumption | done];
  rewrite ?Hname;
  repeat first
    [ rewrite bool_decide_eq_true_2 by done
    | rewrite bool_decide_eq_false_2 by (by intros [=]) ].

(** The same for the [switch] of [server.js], which reads the name once. *)
Ltac dispatch_switch Hname :=
  rewrite (event_name_get_field _ _ Hname); exec;
  cbv beta iota delta [is_string];
  repeat first
    [ rewrite bool_decide_eq_true_2 by done
    | rewrite bool_decide_eq_false_2 by done ].

Lemma for_of_send (userId : string) (events : list json) (w : world) :
  faults w = [] →
  for_of events (λ event, sendToUser userId event) w =
    (inr (), set_outbox (outbox w ++ ((λ e, (ToUser userId, e)) <$> events)) w).
Proof.
  revert w. induction events as [|e events IH]; intros w Hq.
  - quiet w Hq. exec. simpl. by rewrite app_nil_r.
  - simpl for_of. change ((sendToUser userId e;; for_of events (λ event, sendToUser userId event)) w)
      with (match sendToUser userId e w with
            | (inl x, w') => (inl x, w')
            | (inr _, w') => for_of events (λ event, sendToUser userId event) w'
            end).
    quiet w Hq. exec. rewrite IH by done. exec.
    by rewrite fmap_cons, <- app_assoc.
Qed.


Lemma Part000_handle_add (m : json) (d id shape : value) (key : string)
    (w : world) :
  faults w = [] → event_name m = Some "addShape" →
  get_field "data" m = inr d → destructure2 d = inr (id, shape) →
  ToPropertyKey id = inr key →
  Part000.handleUserEvent m w =
    (inr Success,
     set_outbox (outbox w ++ [(ToGroup "draw", m)])
       (set_shapes
          (Some (JSON_stringify
                   (js_assign key shape (JSON_parse_or_empty (shapes w)))))
          (set_eventQueue (take 100 (m :: eventQueue w)) w))).
Proof.
  intros Hq Hname Hdata Hpair Hkey. unfold Part000.handleUserEvent.
  dispatch Hname. rewrite Hdata. quiet w Hq. exec.
  rewrite Hpair. exec. rewrite Hkey. exec. by rewrite redis_range_0_99.
Qed.

Lemma Part000_handle_remove (m : json) (id : value) (key : string) (w : world) :
  faults w = [] → event_name m = Some "removeShape" →
  get_field "data" m = inr id → ToPropertyKey id = inr key →
  Part000.handleUserEvent m w =
    (inr Success,
     set_outbox (outbox w ++ [(ToGroup "draw", m)])
       (set_shapes (Some (delete key (current_shapes w)))
          (set_eventQueue (take 100 (m :: eventQueue w)) w))).
Proof.
  intros Hq Hname Hdata Hkey. unfold Part000.handleUserEvent.
  dispatch Hname. rewrite Hdata. quiet w Hq. exec. rewrite Hkey. exec.
  by rewrite redis_range_0_99, stringify_delete.
Qed.

Lemma Part000_handle_clear (m : json) (w : world) :
  faults w = [] → event_name m = Some "clear" →
  Part000.handleUserEvent m w =
    (inr Success,
     set_outbox (outbox w ++ [(ToGroup "draw", m)])
       (set_background None
          (set_shapes None
             (set_eventQueue (take 100 (m :: eventQueue w)) w)))).
Proof.
  intros Hq Hname. unfold Part000.handleUserEvent.
  dispatch Hname. quiet w Hq. exec. by rewrite redis_range_0_99.
Qed.

Lemma Part000_handle_other (m : json) (w : world) :
  faults w = [] → m ≠ JNull →
  event_name m ≠ Some "addShape" → event_name m ≠ Some "removeShape" →
  event_name m ≠ Some "clear" →
  Part000.handleUserEvent m w =
    (inr Success,
     set_outbox (outbox w ++ [(ToGroup "draw", m)])
       (set_eventQueue (take 100 (m :: eventQueue w)) w)).
Proof.
  intros Hq Hm Ha Hr Hc. unfold Part000.handleUserEvent.
  rewrite !name_is_event_name by done.
  rewrite !bool_decide_eq_false_2 by done.
  quiet w Hq. exec. by rewrite redis_range_0_99.
Qed.

Lemma Part000_handle_null (w : world) :
  faults w = [] →
  Part000.handleUserEvent JNull w =
    (inl RangeError, set_eventQueue (take 100 (JNull :: eventQueue w)) w).
Proof.
  intros Hq. unfold Part000.handleUserEvent. rewrite name_is_null.
  quiet w Hq. exec. by rewrite redis_range_0_99.
Qed.

Lemma Part000_replay (userId : string) (w : world) :
  faults w = [] →
  Part000.replayMissedEvents userId w =
    (inr (),
     set_outbox (outbox w ++ ((λ e, (ToUser userId, e)) <$> eventQueue w)) w).
Proof.
  intros Hq. unfold Part000.replayMissedEvents.
  change ((events ← redis_lrange_eventQueue 0 (-1);
           for_of events (λ event, sendToUser userId event)) w)
    with (match redis_lrange_eventQueue 0 (-1) w with
          | (inl x, w') => (inl x, w')
          | (inr events, w') => for_of events (λ event, sendToUser userId event) w'
          end).
  replace (redis_lrange_eventQueue 0 (-1) w) with (@inr exn _ (eventQueue w), w)
    by (quiet w Hq; exec; by rewrite redis_range_all).
  by apply for_of_send.
Qed.

Lemma Part000_connected (userId : string) (w : world) :
  faults w = [] →
  Part000.onConnected userId w =
    (inr (),
     set_outbox
       (outbox w
        ++ [(ToGroup "draw", updateUser (users w + 1));
            (ToUser userId, syncState (current_shapes w) (current_background w))]
        ++ ((λ e, (ToUser userId, e)) <$> eventQueue w))
       (set_users (users w + 1) w)).
Proof.
  intros Hq. unfold Part000.onConnected.
  quiet w Hq. exec. rewrite Part000_replay by done. exec.
  by rewrite <- !app_assoc.
Qed.

Lemma Part000_disconnected (w : world) :
  faults w = [] →
  Part000.onDisconnected w =
    (inr (),
     set_outbox (outbox w ++ [(ToGroup "draw", updateUser (Z.max 0 (users w - 1)))])
       (set_users (Z.max 0 (users w - 1)) w)).
Proof. intros Hq. unfold Part000.onDisconnected. by quiet w Hq. Qed.



Lemma ServerJs_handle_add (m : json) (d id shape : value) (key : string)
    (w : world) :
  faults w = [] → event_name m = Some "addShape" →
  get_field "data" m = inr d → destructure2 d = inr (id, shape) →
  ToPropertyKey id = inr key →
  ServerJs.handleUserEvent m w =
    (inr Success,
     set_shapes
       (Some (JSON_stringify
                (js_assign key shape (JSON_parse_or_empty (shapes w)))))
       w).
Proof.
  intros Hq Hname Hdata Hpair Hkey. unfold ServerJs.handleUserEvent.
  dispatch_switch Hname. rewrite Hdata. exec. rewrite Hpair.
  quiet w Hq. exec. rewrite Hkey. by exec.
Qed.

Lemma ServerJs_handle_remove (m : json) (id : value) (key : string) (w : world) :
  faults w = [] → event_name m = Some "removeShape" →
  get_field "data" m = inr id → ToPropertyKey id = inr key →
  ServerJs.handleUserEvent m w =
    (inr Success,
     set_shapes (Some (delete key (current_shapes w))) w).
Proof.
  intros Hq Hname Hdata Hkey. unfold ServerJs.handleUserEvent.
  dispatch_switch Hname. rewrite Hdata. quiet w Hq. exec. rewrite Hkey. exec.
  by rewrite stringify_delete.
Qed.

Lemma ServerJs_handle_clear (m : json) (w : world) :
  faults w = [] → event_name m = Some "clear" →
  ServerJs.handleUserEvent m w =
    (inr Success, set_background None (set_shapes None w)).
Proof.
  intros Hq Hname. unfold ServerJs.handleUserEvent.
  dispatch_switch Hname. by quiet w Hq.
Qed.

Lemma ServerJs_connected (w : world) :
  faults w = [] →
  ServerJs.onConnected w =
    (inr (),
     set_outbox (outbox w ++ [(ToGroup "draw", updateUser (users w + 1))])
       (set_users (users w + 1) w)).
Proof. intros Hq. unfold ServerJs.onConnected. by quiet w Hq. Qed.

Lemma ServerJs_disconnected (w : world) :
  faults w = [] →
  ServerJs.onDisconnected w =
    (inr (),
     set_outbox (outbox w ++ [(ToGroup "draw", updateUser (Z.max 0 (users w - 1)))])
       (set_users (Z.max 0 (users w - 1)) w)).
Proof.
  intros Hq. unfold ServerJs.onDisconnected. quiet w Hq. exec.
  case_bool_decide; exec.
  - by rewrite Z.max_l by lia.
  - by rewrite Z.max_r by lia.
Qed.


Lemma is_string_event_name (s : string) (m : json) (v : value) :
  get_field "name" m = inr v → is_string s v = bool_decide (event_name m = Some s).
Proof.
  destruct m as [| | | | |fields]; try by intros [= <-].
  simpl. intros [= <-]. destruct (fields !! "name") as [[| | |s'| |]|]; try done.
  simpl. apply bool_decide_ext. split; [by intros -> | by intros [= ->]].
Qed.

Lemma ServerJs_handle_other (m : json) (w : world) :
  m ≠ JNull →
  event_name m ≠ Some "addShape" → event_name m ≠ Some "removeShape" →
  event_name m ≠ Some "clear" →
  ServerJs.handleUserEvent m w = (inr Success, w).
Proof.
  intros Hm Ha Hr Hc. unfold ServerJs.handleUserEvent.
  destruct (get_field "name" m) as [e|v] eqn:Hv; [by destruct m|].
  exec. rewrite !(is_string_event_name _ _ _ Hv).
  by rewrite !bool_decide_eq_false_2 by done.
Qed.

Lemma ServerJs_handle_null (w : world) :
  ServerJs.handleUserEvent JNull w = (inl RangeError, w).
Proof. done. Qed.

(** ** What a computation leaves alone *)

Section keeps.
Context (R : relation world) `{!PreOrder R}.

Lemma keeps_ret {A : Type} (a : A) : keeps R (mret a).
Proof. intros w. simpl. reflexivity. Qed.

Lemma keeps_throw {A : Type} (e : exn) : keeps R (throw (A:=A) e).
Proof. intros w. simpl. reflexivity. Qed.

Lemma keeps_lift {A : Type} (r : exn + A) : keeps R (lift r).
Proof. intros w. simpl. reflexivity. Qed.

Lemma keeps_get_world : keeps R get_world.
Proof. intros w. simpl. reflexivity. Qed.

Lemma keeps_bind {A B : Type} (c : M A) (k : A → M B) :
  keeps R c → (∀ a, keeps R (k a)) → keeps R (c ≫= k).
Proof.
  intros Hc Hk w. specialize (Hc w). unfold mbind, M_bind.
  destruct (c w) as [[e|a] w1]; [done|].
  etrans; [exact Hc | apply Hk].
Qed.

Lemma keeps_bind_lift {A B : Type} (r : exn + A) (k : A → M B) :
  (∀ a, r = inr a → keeps R (k a)) → keeps R (lift r ≫= k).
Proof.
  intros Hk w. unfold mbind, M_bind, lift.
  destruct r as [e|a]; [done | by apply Hk].
Qed.

Lemma keeps_try_catch {A : Type} (c : M A) (h : exn → M A) :
  keeps R c → (∀ e, keeps R (h e)) → keeps R (try_catch c h).
Proof.
  intros Hc Hh w. specialize (Hc w). unfold try_catch.
  destruct (c w) as [[e|a] w1]; [|done].
  etrans; [exact Hc | apply Hh].
Qed.

Lemma keeps_for_of {A : Type} (xs : list A) (body : A → M unit) :
  (∀ x, keeps R (body x)) → keeps R (for_of xs body).
Proof.
  intros Hbody. induction xs as [|x xs IH]; simpl.
  - apply keeps_ret.
  - apply keeps_bind; [apply Hbody | by intros _].
Qed.

Lemma keeps_name_is (s : string) (m : json) : keeps R (name_is s m).
Proof. apply keeps_bind; [apply keeps_lift | intros v; apply keeps_ret]. Qed.

End keeps.

#[global] Instance same_document_preorder : PreOrder same_document.
Proof.
  split; [done|]. intros w1 w2 w3 (?&?&?) (?&?&?).
  unfold same_document. split_and!; congruence.
Qed.

#[global] Instance same_background_preorder : PreOrder same_background.
Proof. split; [done|]. unfold same_background. intros w1 w2 w3. congruence. Qed.

#[global] Instance same_queue_preorder : PreOrder same_queue.
Proof. split; [done|]. unfold same_queue. intros w1 w2 w3. congruence. Qed.

#[global] Instance stays_quiet_preorder : PreOrder stays_quiet.
Proof. split; [by intros w ?|]. unfold stays_quiet. intros w1 w2 w3. auto. Qed.

#[global] Instance stays_first_preorder (m : json) : PreOrder (stays_first m).
Proof. split; [by intros w ?|]. unfold stays_first. intros w1 w2 w3. auto. Qed.

(** An external call keeps a relation when each of its three outcomes
    does. *)
Ltac keeps_call :=
  let w := fresh "w" in
  intros w; destruct w as [?sh ?bg ?u ?q ?o [|[] ?f]];
  exec; hnf; simpl; done.

Ltac keeps_step :=
  first
    [ apply keeps_ret; solve [tc_solve]
    | apply keeps_throw; solve [tc_solve]
    | apply keeps_lift; solve [tc_solve]
    | apply keeps_name_is; solve [tc_solve]
    | apply keeps_bind_lift; [tc_solve | intros ? ?]
    | apply keeps_bind; [tc_solve | | intros ?]
    | apply keeps_try_catch; [tc_solve | | intros ?]
    | apply keeps_for_of; [tc_solve | intros ?]
    | match goal with
      | |- keeps _ (if ?b then _ else _) => destruct b
      | |- keeps _ (let '(_, _) := ?p in _) => destruct p
      end
    | solve [keeps_call] ].

Ltac keeps_all := repeat keeps_step.

Lemma Part000_handle_quiet (m : json) : keeps stays_quiet (Part000.handleUserEvent m).
Proof. unfold Part000.handleUserEvent. keeps_all. Qed.

Lemma ServerJs_handle_quiet (m : json) : keeps stays_quiet (ServerJs.handleUserEvent m).
Proof. unfold ServerJs.handleUserEvent. keeps_all. Qed.

(** ** The event log *)

Lemma try_catch_bind_ok {A B : Type} (c : M A) (k : A → M B) (h : exn → M B)
    (w w1 : world) (a : A) :
  c w = (inr a, w1) → try_catch (c ≫= k) h w = try_catch (k a) h w1.
Proof. intros Hc. unfold try_catch, mbind, M_bind. by rewrite Hc. Qed.

Lemma try_catch_bind_raise {A B : Type} (c : M A) (k : A → M B) (h : exn → M B)
    (w w1 : world) (e : exn) :
  c w = (inl e, w1) → try_catch (c ≫= k) h w = h e w1.
Proof. intros Hc. unfold try_catch, mbind, M_bind. by rewrite Hc. Qed.

(** Whatever the event is, and whether or not it can be applied, it is
    pushed on the log and the log is trimmed. *)
Lemma Part000_handle_logged (m : json) (w : world) :
  faults w = [] →
  eventQueue (Part000.handleUserEvent m w).2 = take 100 (m :: eventQueue w).
Proof.
  intros Hq. unfold Part000.handleUserEvent. quiet w Hq.
  erewrite try_catch_bind_ok by (exec; reflexivity).
  erewrite try_catch_bind_ok by (exec; rewrite redis_range_0_99; reflexivity).
  match goal with
  | |- eventQueue (try_catch ?c ?h ?w1).2 = _ =>
      assert (keeps same_queue (try_catch c h)) as Hkeep by keeps_all;
      by rewrite (Hkeep w1)
  end.
Qed.

Lemma take_app_take {A : Type} (n : nat) (l k : list A) :
  take n (l ++ take n k) = take n (l ++ k).
Proof. rewrite !take_app, take_take. do 2 f_equal. lia. Qed.

Lemma run_all_cons {A R : Type} (h : A → M R) (x : A) (xs : list A) (w : world) :
  run_all h (x :: xs) w = run_all h xs (h x w).2.
Proof. done. Qed.

Lemma run_all_quiet {A R : Type} (h : A → M R) (xs : list A) (w : world) :
  (∀ x, keeps stays_quiet (h x)) → faults w = [] → faults (run_all h xs w) = [].
Proof.
  intros Hh. revert w. induction xs as [|x xs IH]; intros w Hq; [done|].
  rewrite run_all_cons. apply IH. by apply Hh.
Qed.

Lemma Part000_run_logged (ms : list json) (w : world) :
  faults w = [] → (length (eventQueue w) ≤ 100)%nat →
  eventQueue (run_all Part000.handleUserEvent ms w)
  = take 100 (reverse ms ++ eventQueue w).
Proof.
  revert w. induction ms as [|m ms IH]; intros w Hq Hlen.
  - simpl. by rewrite take_ge.
  - rewrite run_all_cons, IH.
    + rewrite Part000_handle_logged by done.
      rewrite take_app_take, reverse_cons. by rewrite <- app_assoc.
    + by apply Part000_handle_quiet.
    + rewrite Part000_handle_logged by done. rewrite length_take. lia.
Qed.

(** C3: the event log never holds more than 100 events.  Each event
    served is pushed at the head of the log and the log is cut after its
    first 100 elements.  So serving the events [ms] one after the other,
    from a world whose log is within the bound, leaves in the log the
    first 100 elements of: the events in reverse order of arrival,
    followed by the old log.  From an empty log, after 150 events,
    [recent()] is exactly the last 100 of them, ordered by age, the newest
    at the head, as the log keeps them. *)
Theorem event_log_bounded (ms : list json) (w : world) :
  faults w = [] → (length (eventQueue w) ≤ 100)%nat →
  let w' := run_all Part000.handleUserEvent ms w in
  (length (recent w') ≤ 100)%nat
  ∧ recent w' = take 100 (reverse ms ++ eventQueue w)
  ∧ (∀ m, recent (Part000.handleUserEvent m w).2 = take 100 (m :: eventQueue w))
  ∧ (eventQueue w = [] → length ms = 150%nat →
     recent w' = reverse (drop 50 ms) ∧ length (recent w') = 100%nat).
Proof.
  intros Hq Hlen w'. subst w'. unfold recent. rewrite !redis_range_all.
  rewrite Part000_run_logged by done. split_and!.
  - rewrite length_take. lia.
  - done.
  - intros m. by rewrite redis_range_all, Part000_handle_logged.
  - intros -> Hms. rewrite app_nil_r.
    assert (length (reverse (drop 50 ms)) = 100%nat) as Hlast
      by (rewrite length_reverse, length_drop; lia).
    assert (take 100 (reverse ms) = reverse (drop 50 ms)) as ->; [|done].
    rewrite <- (take_drop 50 ms) at 1. rewrite reverse_app.
    by rewrite take_app_length'.
Qed.

Lemma event_log_bounded_witness :
  let ms := (λ n, addShape (pretty n) (JNum (Z.of_nat n))) <$> seq 0 150 in
  faults initial = [] ∧ (length (eventQueue initial) ≤ 100)%nat
  ∧ eventQueue initial = [] ∧ length ms = 150%nat
  ∧ recent (run_all Part000.handleUserEvent ms initial) = reverse (drop 50 ms)
  ∧ length (recent (run_all Part000.handleUserEvent ms initial)) = 100%nat.
Proof.
  intros ms.
  split; [reflexivity|]. split; [simpl; lia|].
  split; [reflexivity|]. split; [reflexivity|].
  apply (event_log_bounded ms initial); [reflexivity | simpl; lia | reflexivity | reflexivity].
Defined.

(** C1, as the code has it: an event named [clear] is pushed on the log
    like any other.  Served without a failing call, it ends at the head of
    what [recent()] returns, in front of the events retained from before
    it (the oldest one leaving when the log was full), while both keys of
    the document are deleted. *)
Theorem clear_is_logged (m : json) (w : world) :
  faults w = [] → event_name m = Some "clear" →
  let w' := (Part000.handleUserEvent m w).2 in
  recent w' = m :: take 99 (eventQueue w)
  ∧ shapes w' = None ∧ background w' = None.
Proof.
  intros Hq Hname w'. subst w'. unfold recent. rewrite redis_range_all.
  rewrite Part000_handle_clear by done. by destruct w.
Qed.

Lemma clear_is_logged_witness :
  faults initial = [] ∧ event_name clear = Some "clear"
  ∧ recent (Part000.handleUserEvent clear initial).2 = [clear].
Proof.
  split; [reflexivity|]. split; [reflexivity|].
  apply (clear_is_logged clear initial); reflexivity.
Defined.

(** C1, refuted as stated: after an [addShape] and a [clear], the log
    holds the [clear], and the [addShape] it was meant to undo behind
    it. *)
Lemma clear_not_logged_counterexample :
  let w := run_all Part000.handleUserEvent
             [addShape "a" (JObj {[ "x" := JNum 1 ]}); clear] initial in
  event_name clear = Some "clear"
  ∧ recent w = [clear; addShape "a" (JObj {[ "x" := JNum 1 ]})]
  ∧ current_shapes w = ∅.
Proof. vm_compute. done. Qed.

(** The replay in general: a connection that joins is sent, after the
    count and the snapshot, each retained event in the order of the log,
    head first; and the log holds the events newest first, the reverse of
    the order in which they were applied.  With an empty log nothing is
    replayed. *)
Theorem replay_newest_first (ms : list json) (w : world) (userId : string) :
  faults w = [] → (length (eventQueue w) ≤ 100)%nat →
  let w1 := run_all Part000.handleUserEvent ms w in
  let greeting :=
    [(ToGroup "draw", updateUser (users w1 + 1));
     (ToUser userId, syncState (current_shapes w1) (current_background w1))] in
  outbox (Part000.onConnected userId w1).2 =
    outbox w1 ++ greeting ++ ((λ e, (ToUser userId, e)) <$> eventQueue w1)
  ∧ eventQueue w1 = take 100 (reverse ms ++ eventQueue w)
  ∧ (eventQueue w1 = [] →
     outbox (Part000.onConnected userId w1).2 = outbox w1 ++ greeting).
Proof.
  intros Hq Hlen w1 greeting.
  assert (faults w1 = []) as Hq1
    by (apply run_all_quiet; [apply Part000_handle_quiet | done]).
  assert (outbox (Part000.onConnected userId w1).2 =
            outbox w1 ++ greeting ++ ((λ e, (ToUser userId, e)) <$> eventQueue w1))
    as Hsent by (rewrite Part000_connected by done; by destruct w1).
  split_and!.
  - done.
  - by apply Part000_run_logged.
  - intros Hempty. by rewrite Hsent, Hempty.
Qed.

Lemma replay_newest_first_witness :
  let e1 := addShape "a" (JNum 1) in
  let e2 := addShape "b" (JNum 2) in
  let w1 := run_all Part000.handleUserEvent [e1; e2] initial in
  outbox (Part000.onConnected "u" w1).2 =
    outbox w1
    ++ [(ToGroup "draw", updateUser 1);
        (ToUser "u", syncState {[ "a" := JNum 1; "b" := JNum 2 ]} (JObj ∅));
        (ToUser "u", e2);
        (ToUser "u", e1)].
Proof.
  intros e1 e2 w1.
  destruct (replay_newest_first [e1; e2] initial "u") as (Hsent & Hlog & _);
    [reflexivity | simpl; lia |].
  fold w1 in Hsent, Hlog. rewrite Hsent, Hlog. by vm_compute.
Defined.

(** C2, on the code: [addShape "a"] then [removeShape "a"] are served
    and a connection joins.  The store holds no shape, and the connection
    is sent the empty snapshot, then the [removeShape], then the
    [addShape]: the retained events in the reverse of the order in which
    they were applied, where the replay is there to bring the connection
    up to date. *)
Lemma replay_after_add_remove :
  let e1 := addShape "a" (JObj {[ "x" := JNum 1 ]}) in
  let e2 := removeShape "a" in
  let w := run_all Part000.handleUserEvent [e1; e2] initial in
  current_shapes w = ∅
  ∧ outbox (Part000.onConnected "u" w).2 =
      outbox w
      ++ [(ToGroup "draw", updateUser 1);
          (ToUser "u", syncState ∅ (JObj ∅));
          (ToUser "u", e2);
          (ToUser "u", e1)]
  ∧ [e2; e1] ≠ [e1; e2].
Proof. split_and!; [by vm_compute | by vm_compute | by intros [=]]. Qed.

(** C6, as the code has it: an event whose name is none of [addShape],
    [removeShape] and [clear] is not rejected.  When no call fails the
    sender gets [success]; the document is not touched; the version with
    the log pushes the event on it and broadcasts it to the group, and
    [server.js] does nothing at all. *)
Theorem unknown_event_accepted (m : json) (s : string) (w : world) :
  faults w = [] → event_name m = Some s →
  s ∉ ["addShape"; "removeShape"; "clear"] →
  Part000.handleUserEvent m w =
    (inr Success,
     set_outbox (outbox w ++ [(ToGroup "draw", m)])
       (set_eventQueue (take 100 (m :: eventQueue w)) w))
  ∧ ServerJs.handleUserEvent m w = (inr Success, w).
Proof.
  intros Hq Hname Hs.
  assert (m ≠ JNull) by (by eapply event_name_not_null).
  assert (event_name m ≠ Some "addShape"
          ∧ event_name m ≠ Some "removeShape"
          ∧ event_name m ≠ Some "clear") as (?&?&?)
    by (rewrite Hname; split_and!; intros [= ->]; apply Hs; repeat constructor).
  split.
  - by apply Part000_handle_other.
  - by apply ServerJs_handle_other.
Qed.

Lemma unknown_event_accepted_witness :
  let m := JObj {[ "name" := JStr "resize"; "data" := JNum 2 ]} in
  (Part000.handleUserEvent m initial).1 = inr Success
  ∧ (ServerJs.handleUserEvent m initial).1 = inr Success.
Proof.
  intros m.
  destruct (unknown_event_accepted m "resize" initial) as [HP HS].
  - reflexivity.
  - reflexivity.
  - apply (bool_decide_unpack _). by vm_compute.
  - by rewrite HP, HS.
Defined.

(** C6, refuted as stated: an event named [resize] is answered by
    [success] in both versions. *)
Lemma unknown_event_rejected_counterexample :
  let m := JObj {[ "name" := JStr "resize"; "data" := JNum 2 ]} in
  event_name m = Some "resize"
  ∧ (Part000.handleUserEvent m initial).1 = inr Success
  ∧ (ServerJs.handleUserEvent m initial).1 = inr Success.
Proof. by vm_compute. Qed.

(** ** The presence counter *)

Lemma Part000_presence_quiet (op : presence_op) : keeps stays_quiet (Part000_presence op).
Proof.
  destruct op; simpl; unfold Part000.onConnected, Part000.onDisconnected,
    Part000.replayMissedEvents; keeps_all.
Qed.

Lemma ServerJs_presence_quiet (op : presence_op) : keeps stays_quiet (ServerJs_presence op).
Proof.
  destruct op; simpl; unfold ServerJs.onConnected, ServerJs.onDisconnected;
    keeps_all.
Qed.

Lemma Part000_presence_users (op : presence_op) (w : world) :
  faults w = [] → users (Part000_presence op w).2 = presence_step (users w) op.
Proof.
  intros Hq. destruct op as [userId|]; simpl.
  - rewrite Part000_connected by done. by destruct w.
  - rewrite Part000_disconnected by done. by destruct w.
Qed.

Lemma ServerJs_presence_users (op : presence_op) (w : world) :
  faults w = [] → users (ServerJs_presence op w).2 = presence_step (users w) op.
Proof.
  intros Hq. destruct op as [userId|]; simpl.
  - rewrite ServerJs_connected by done. by destruct w.
  - rewrite ServerJs_disconnected by done. by destruct w.
Qed.

Lemma run_presence_users (h : presence_op → M unit) (ops : list presence_op) (w : world) :
  (∀ op, keeps stays_quiet (h op)) →
  (∀ op w, faults w = [] → users (h op w).2 = presence_step (users w) op) →
  faults w = [] →
  users (run_all h ops w) = foldl presence_step (users w) ops.
Proof.
  intros Hquiet Hstep. revert w. induction ops as [|op ops IH]; intros w Hq; [done|].
  rewrite run_all_cons, IH by (by apply Hquiet). simpl. by rewrite Hstep.
Qed.

Lemma excess_cons_connect userId ops : excess (Connect userId :: ops) = excess ops + 1.
Proof. unfold excess. simpl. lia. Qed.

Lemma excess_cons_disconnect ops : excess (Disconnect :: ops) = excess ops - 1.
Proof. unfold excess. simpl. lia. Qed.

Lemma presence_step_ge (n : Z) (op : presence_op) :
  0 ≤ n → 0 ≤ presence_step n op.
Proof. destruct op; simpl; lia. Qed.

Lemma presence_nonneg (ops : list presence_op) (n : Z) :
  0 ≤ n → 0 ≤ foldl presence_step n ops.
Proof.
  revert n. induction ops as [|op ops IH]; intros n Hn; [done|].
  simpl. by apply IH, presence_step_ge.
Qed.

Lemma presence_ge_total (ops : list presence_op) (n : Z) :
  n + excess ops ≤ foldl presence_step n ops.
Proof.
  revert n. induction ops as [|op ops IH]; intros n.
  - unfold excess. simpl. lia.
  - simpl. specialize (IH (presence_step n op)).
    destruct op; [rewrite excess_cons_connect | rewrite excess_cons_disconnect];
      simpl in *; lia.
Qed.

Lemma presence_ge_suffix (ops s : list presence_op) (n : Z) :
  0 ≤ n → s `suffix_of` ops → excess s ≤ foldl presence_step n ops.
Proof.
  revert n. induction ops as [|op ops IH]; intros n Hn Hs.
  - apply suffix_nil_inv in Hs as ->. unfold excess. simpl. lia.
  - destruct s as [|op' s].
    { pose proof (presence_nonneg (op :: ops) n Hn). by change (excess []) with 0. }
    apply suffix_cons_inv in Hs as [[= -> ->] | Hs].
    + pose proof (presence_ge_total (op :: ops) n). lia.
    + simpl. by apply IH; [apply presence_step_ge|].
Qed.

Lemma presence_attained (ops : list presence_op) (n : Z) :
  0 ≤ n →
  foldl presence_step n ops = n + excess ops
  ∨ ∃ s, s `suffix_of` ops ∧ foldl presence_step n ops = excess s.
Proof.
  revert n. induction ops as [|op ops IH]; intros n Hn.
  - left. unfold excess. simpl. lia.
  - simpl. destruct (IH (presence_step n op)) as [Heq | (s & Hs & Heq)].
    + by apply presence_step_ge.
    + destruct op as [userId|].
      * left. rewrite Heq, excess_cons_connect. simpl. lia.
      * destruct (decide (n = 0)) as [-> | Hpos].
        -- right. exists ops. split; [by apply suffix_cons_r|].
           rewrite Heq. simpl. lia.
        -- left. rewrite Heq, excess_cons_disconnect. simpl. lia.
    + right. exists s. split; [by apply suffix_cons_r | done].
Qed.

Lemma presence_zero_iff (ops : list presence_op) :
  foldl presence_step 0 ops = 0
  ↔ ∀ s, s `suffix_of` ops → (connects s ≤ disconnects s)%nat.
Proof.
  split.
  - intros Hzero s Hs.
    pose proof (presence_ge_suffix ops s 0 (Z.le_refl 0) Hs) as Hle.
    unfold excess in Hle. lia.
  - intros Hall. pose proof (presence_nonneg ops 0 (Z.le_refl 0)) as Hge.
    destruct (presence_attained ops 0 (Z.le_refl 0)) as [Heq | (s & Hs & Heq)].
    + specialize (Hall ops (reflexivity ops)). unfold excess in Heq. lia.
    + specialize (Hall s Hs). unfold excess in Heq. lia.
Qed.

(** The counter that starts at 0 ends at the largest excess of
    connections over disconnections among the ends of the sequence. *)
Lemma presence_largest_excess (ops : list presence_op) :
  let n := foldl presence_step 0 ops in
  (∀ s, s `suffix_of` ops → excess s ≤ n)
  ∧ (∃ s, s `suffix_of` ops ∧ excess s = n).
Proof.
  intros n. subst n. split.
  - intros s Hs. by apply presence_ge_suffix.
  - destruct (presence_attained ops 0 (Z.le_refl 0)) as [Heq | (s & Hs & Heq)].
    + exists ops. split; [reflexivity | lia].
    + by exists s.
Qed.

(** C4, as the code has it, when no call fails and the handlers are
    served one at a time: the counter is never negative.  Each
    disconnection leaves [max 0 (n - 1)] both in the store and in the
    count it broadcasts, so a count that would be negative is put back to
    0 in the store too.  After any sequence of connections and
    disconnections that starts at 0 the counter is the largest excess of
    connections over disconnections among the ends of the sequence, the
    empty one included: no end has a larger excess and one has exactly
    that excess.  It is 0 exactly when no end of the sequence has more
    connections than disconnections, which more disconnections than
    connections overall do not ensure.  Both versions agree. *)
Theorem presence_never_negative (ops : list presence_op) (w : world) :
  faults w = [] →
  (let n := users (run_all Part000_presence ops initial) in
   users (run_all ServerJs_presence ops initial) = n
   ∧ 0 ≤ n
   ∧ (∀ s, s `suffix_of` ops →
        Z.of_nat (connects s) - Z.of_nat (disconnects s) ≤ n)
   ∧ (∃ s, s `suffix_of` ops
           ∧ Z.of_nat (connects s) - Z.of_nat (disconnects s) = n)
   ∧ (n = 0 ↔ ∀ s, s `suffix_of` ops → (connects s ≤ disconnects s)%nat))
  ∧ (let n' := Z.max 0 (users w - 1) in
     0 ≤ n'
     ∧ Part000.onDisconnected w =
         (inr (), set_outbox (outbox w ++ [(ToGroup "draw", updateUser n')])
                    (set_users n' w))
     ∧ ServerJs.onDisconnected w =
         (inr (), set_outbox (outbox w ++ [(ToGroup "draw", updateUser n')])
                    (set_users n' w))).
Proof.
  intros Hq. split.
  - intros n. subst n.
    rewrite !run_presence_users
      by first [ apply Part000_presence_quiet | apply ServerJs_presence_quiet
               | apply Part000_presence_users | apply ServerJs_presence_users
               | done ].
    simpl users. split_and!.
    + done.
    + by apply presence_nonneg.
    + apply (presence_largest_excess ops).
    + apply (presence_largest_excess ops).
    + apply presence_zero_iff.
  - intros n'. split_and!.
    + lia.
    + by apply Part000_disconnected.
    + by apply ServerJs_disconnected.
Qed.

Lemma presence_never_negative_witness :
  let ops := [Disconnect; Connect "u"; Connect "v"; Disconnect] in
  faults initial = []
  ∧ 0 ≤ users (run_all Part000_presence ops initial)
  ∧ (∃ s, s `suffix_of` ops
          ∧ Z.of_nat (connects s) - Z.of_nat (disconnects s)
            = users (run_all Part000_presence ops initial))
  ∧ users (Part000.onDisconnected initial).2 = 0.
Proof.
  intros ops. split; [reflexivity|].
  destruct (presence_never_negative ops initial)
    as [(_ & Hge & _ & Hattained & _) (_ & HP & _)]; [reflexivity|].
  split_and!; [exact Hge | exact Hattained |]. rewrite HP. reflexivity.
Defined.

(** C4, refuted as stated: with one connection and two disconnections,
    the disconnections first, the counter ends at 1. *)
Lemma presence_zero_counterexample :
  let ops := [Disconnect; Disconnect; Connect "u"] in
  (connects ops < disconnects ops)%nat
  ∧ users (run_all Part000_presence ops initial) = 1
  ∧ users (run_all ServerJs_presence ops initial) = 1.
Proof. vm_compute. split_and!; (done || lia). Qed.

(** ** The document store *)

Lemma null_or_not (m : json) : m = JNull ∨ m ≠ JNull.
Proof. destruct m; by (left + right). Qed.

Lemma Part000_keeps_background (m : json) :
  event_name m ≠ Some "clear" → keeps same_background (Part000.handleUserEvent m).
Proof.
  intros Hclear. unfold Part000.handleUserEvent.
  destruct (null_or_not m) as [-> | Hm].
  - rewrite !name_is_null. keeps_all.
  - rewrite !name_is_event_name by done.
    rewrite (bool_decide_eq_false_2 (event_name m = Some "clear")) by done.
    keeps_all.
Qed.

Lemma Part000_keeps_document (m : json) :
  event_name m ≠ Some "addShape" → event_name m ≠ Some "removeShape" →
  event_name m ≠ Some "clear" →
  keeps same_document (Part000.handleUserEvent m).
Proof.
  intros Ha Hr Hc. unfold Part000.handleUserEvent.
  destruct (null_or_not m) as [-> | Hm].
  - rewrite !name_is_null. keeps_all.
  - rewrite !name_is_event_name by done.
    rewrite !bool_decide_eq_false_2 by done.
    keeps_all.
Qed.

Lemma ServerJs_keeps_background (m : json) :
  event_name m ≠ Some "clear" → keeps same_background (ServerJs.handleUserEvent m).
Proof.
  intros Hclear. unfold ServerJs.handleUserEvent.
  apply keeps_try_catch; [tc_solve | | keeps_all].
  apply keeps_bind_lift; [tc_solve|]. intros name Hname.
  rewrite !(is_string_event_name _ _ _ Hname).
  rewrite (bool_decide_eq_false_2 (event_name m = Some "clear")) by done.
  keeps_all.
Qed.

Lemma ServerJs_keeps_document (m : json) :
  event_name m ≠ Some "addShape" → event_name m ≠ Some "removeShape" →
  event_name m ≠ Some "clear" →
  keeps same_document (ServerJs.handleUserEvent m).
Proof.
  intros Ha Hr Hc. unfold ServerJs.handleUserEvent.
  apply keeps_try_catch; [tc_solve | | keeps_all].
  apply keeps_bind_lift; [tc_solve|]. intros name Hname.
  rewrite !(is_string_event_name _ _ _ Hname).
  rewrite !bool_decide_eq_false_2 by done.
  keeps_all.
Qed.

(** C10: an event whose name is none of [addShape], [removeShape] and
    [clear] leaves the keys [shapes] and [background] (and the counter)
    as they were, whatever else it is and whichever calls fail; an
    [addShape] or a [removeShape] leaves the key [background] as it was.
    This holds in both versions. *)
Theorem events_frame (m : json) (w : world) :
  let wP := (Part000.handleUserEvent m w).2 in
  let wS := (ServerJs.handleUserEvent m w).2 in
  (event_name m ∉ [Some "addShape"; Some "removeShape"; Some "clear"] →
   shapes wP = shapes w ∧ background wP = background w ∧ users wP = users w
   ∧ shapes wS = shapes w ∧ background wS = background w ∧ users wS = users w)
  ∧ (event_name m ∈ [Some "addShape"; Some "removeShape"] →
     background wP = background w ∧ background wS = background w).
Proof.
  intros wP wS. split.
  - intros Hname.
    assert (event_name m ≠ Some "addShape"
            ∧ event_name m ≠ Some "removeShape"
            ∧ event_name m ≠ Some "clear") as (Ha & Hr & Hc)
      by (split_and!; intros Heq; apply Hname; rewrite Heq; repeat constructor).
    destruct (Part000_keeps_document m Ha Hr Hc w) as (?&?&?).
    destruct (ServerJs_keeps_document m Ha Hr Hc w) as (?&?&?).
    by split_and!.
  - intros Hname.
    assert (event_name m ≠ Some "clear") as Hc.
    { intros Heq. rewrite Heq in Hname.
      by repeat (apply elem_of_cons in Hname as [[=] | Hname]);
        apply elem_of_nil in Hname. }
    split.
    + apply (Part000_keeps_background m Hc w).
    + apply (ServerJs_keeps_background m Hc w).
Qed.

Lemma events_frame_witness :
  let m := JObj {[ "name" := JStr "resize" ]} in
  let w := set_faults [false; false; true]
             (set_background (Some (JStr "bg")) initial) in
  background (Part000.handleUserEvent m w).2 = Some (JStr "bg")
  ∧ background (ServerJs.handleUserEvent (addShape "a" JNull) w).2 = Some (JStr "bg").
Proof.
  intros m w. split.
  - destruct (events_frame m w) as [Hother _].
    destruct Hother as (_ & Hbg & _); [|exact Hbg].
    apply (bool_decide_unpack _). by vm_compute.
  - destruct (events_frame (addShape "a" JNull) w) as [_ Hedit].
    destruct Hedit as (_ & Hbg); [|exact Hbg].
    apply (bool_decide_unpack _). by vm_compute.
Defined.

(** C8: whatever the store holds, once an event named [clear] has been
    served and acknowledged both keys are gone: no shape is left and no
    background.  With no failing call it is acknowledged.  This holds in
    both versions. *)
Theorem clear_deletes_both (m : json) (w : world) :
  event_name m = Some "clear" →
  let rP := Part000.handleUserEvent m w in
  let rS := ServerJs.handleUserEvent m w in
  (rP.1 = inr Success →
   shapes rP.2 = None ∧ background rP.2 = None ∧ document rP.2 = (∅, None))
  ∧ (rS.1 = inr Success →
     shapes rS.2 = None ∧ background rS.2 = None ∧ document rS.2 = (∅, None))
  ∧ (faults w = [] → rP.1 = inr Success ∧ rS.1 = inr Success).
Proof.
  intros Hname rP rS. subst rP rS. split_and!.
  - unfold Part000.handleUserEvent. dispatch Hname.
    destruct w as [sh bg u q o f].
    destruct f as [|[] [|[] [|[] [|[] [|[] f]]]]]; exec; done.
  - unfold ServerJs.handleUserEvent. dispatch_switch Hname.
    destruct w as [sh bg u q o f].
    destruct f as [|[] [|[] f]]; exec; done.
  - intros Hq.
    rewrite Part000_handle_clear, ServerJs_handle_clear by done.
    done.
Qed.

Lemma clear_deletes_both_witness :
  let w := set_background (Some (JStr "bg"))
             (set_shapes (Some {[ "a" := JNum 1 ]}) initial) in
  event_name clear = Some "clear"
  ∧ document (Part000.handleUserEvent clear w).2 = (∅, None)
  ∧ document (ServerJs.handleUserEvent clear w).2 = (∅, None).
Proof.
  intros w. split; [reflexivity|].
  destruct (clear_deletes_both clear w) as (HP & HS & _); [reflexivity|].
  split.
  - apply HP. vm_compute. reflexivity.
  - apply HS. vm_compute. reflexivity.
Defined.

Lemma get_data_addShape (id : string) (shape : json) :
  get_field "data" (addShape id shape) = inr (Some (JArr [JStr id; shape])).
Proof. done. Qed.

Lemma get_data_removeShape (id : string) :
  get_field "data" (removeShape id) = inr (Some (JStr id)).
Proof. done. Qed.

(** The shapes that are stored by an [addShape]. *)
Lemma stored_after_add (id : string) (shape : json) (stored : option (gmap string json)) :
  JSON_stringify (js_assign id (Some shape) (JSON_parse_or_empty stored))
  = if bool_decide (id = "__proto__" ∧ default ∅ stored !! id = None)
    then default ∅ stored
    else <[id := shape]> (default ∅ stored).
Proof.
  case_bool_decide as Hid.
  - destruct Hid as [-> Hnone]. by apply stringify_assign_proto.
  - destruct (default ∅ stored !! id) as [v|] eqn:Hlook.
    + apply stringify_assign_own. by rewrite Hlook.
    + apply stringify_assign. intros ->. by apply Hid.
Qed.

(** C9: a [removeShape] deletes the shape stored under its identifier and
    changes nothing else of the document; when no shape is stored under
    it nothing changes and the event is acknowledged all the same.  From
    a store without shapes, an [addShape] followed by the [removeShape]
    of the same identifier leaves no shape, and the background as it
    was.  This holds in both versions. *)
Theorem remove_shape (id : string) (shape : json) (w : world) :
  faults w = [] →
  let rP := Part000.handleUserEvent (removeShape id) w in
  let rS := ServerJs.handleUserEvent (removeShape id) w in
  rP.1 = inr Success ∧ rS.1 = inr Success
  ∧ document rP.2 = (delete id (current_shapes w), background w)
  ∧ document rS.2 = (delete id (current_shapes w), background w)
  ∧ (current_shapes w !! id = None →
     document rP.2 = document w ∧ document rS.2 = document w)
  ∧ (current_shapes w = ∅ →
     document (run_all Part000.handleUserEvent
                 [addShape id shape; removeShape id] w) = (∅, background w)
     ∧ document (run_all ServerJs.handleUserEvent
                   [addShape id shape; removeShape id] w) = (∅, background w)).
Proof.
  intros Hq rP rS. subst rP rS.
  rewrite (Part000_handle_remove _ (Some (JStr id)) id),
    (ServerJs_handle_remove _ (Some (JStr id)) id) by done.
  assert (∀ stored : gmap string json,
            stored = ∅ →
            delete id (if bool_decide (id = "__proto__" ∧ stored !! id = None)
                       then stored
                       else <[id := shape]> stored) = ∅) as Hboth.
  { intros stored ->. case_bool_decide.
    - apply delete_empty.
    - by rewrite delete_insert_eq, delete_empty. }
  split_and!; try done.
  - intros Hid. unfold document. simpl. rewrite delete_id by done. by destruct w.
  - intros Hempty. split.
    + unfold run_all. simpl foldl.
      rewrite (Part000_handle_add (addShape id shape)
                 (Some (JArr [JStr id; shape]))
                 (Some (JStr id)) (Some shape) id) by done.
      rewrite (Part000_handle_remove _ (Some (JStr id)) id)
        by (done || by destruct w).
      unfold document, current_shapes. simpl. rewrite stored_after_add.
      rewrite Hboth by done. by destruct w.
    + unfold run_all. simpl foldl.
      rewrite (ServerJs_handle_add (addShape id shape)
                 (Some (JArr [JStr id; shape]))
                 (Some (JStr id)) (Some shape) id) by done.
      rewrite (ServerJs_handle_remove _ (Some (JStr id)) id)
        by (done || by destruct w).
      unfold document, current_shapes. simpl. rewrite stored_after_add.
      rewrite Hboth by done. by destruct w.
Qed.

Lemma remove_shape_witness :
  faults initial = []
  ∧ document (run_all Part000.handleUserEvent
                [addShape "a" (JObj {[ "x" := JNum 1 ]}); removeShape "a"] initial)
    = (∅, None)
  ∧ (Part000.handleUserEvent (removeShape "a") initial).1 = inr Success.
Proof.
  split; [reflexivity|].
  destruct (remove_shape "a" (JObj {[ "x" := JNum 1 ]}) initial)
    as (HP & _ & _ & _ & _ & Hscenario); [reflexivity|].
  split; [|exact HP]. apply Hscenario. reflexivity.
Defined.

(** *** Against the reference map *)

Lemma Part000_edit_refines (e : edit) (w : world) :
  faults w = [] → "__proto__" ∉ added_ids [e] →
  current_shapes (Part000.handleUserEvent (message_of e) w).2
  = reference_apply (current_shapes w) e.
Proof.
  intros Hq Hid. destruct e as [id shape|id|]; simpl message_of.
  - rewrite (Part000_handle_add (addShape id shape)
               (Some (JArr [JStr id; shape])) (Some (JStr id)) (Some shape) id)
      by done.
    unfold current_shapes. simpl. rewrite stored_after_add.
    rewrite bool_decide_eq_false_2; [by destruct w|].
    intros [-> _]. apply Hid. simpl. by left.
  - rewrite (Part000_handle_remove _ (Some (JStr id)) id) by done.
    by destruct w.
  - rewrite Part000_handle_clear by done. by destruct w.
Qed.

Lemma ServerJs_edit_refines (e : edit) (w : world) :
  faults w = [] → "__proto__" ∉ added_ids [e] →
  current_shapes (ServerJs.handleUserEvent (message_of e) w).2
  = reference_apply (current_shapes w) e.
Proof.
  intros Hq Hid. destruct e as [id shape|id|]; simpl message_of.
  - rewrite (ServerJs_handle_add (addShape id shape)
               (Some (JArr [JStr id; shape])) (Some (JStr id)) (Some shape) id)
      by done.
    unfold current_shapes. simpl. rewrite stored_after_add.
    rewrite bool_decide_eq_false_2; [by destruct w|].
    intros [-> _]. apply Hid. simpl. by left.
  - rewrite (ServerJs_handle_remove _ (Some (JStr id)) id) by done.
    by destruct w.
  - rewrite ServerJs_handle_clear by done. by destruct w.
Qed.

Lemma added_ids_cons (e : edit) (es : list edit) :
  added_ids (e :: es) = added_ids [e] ++ added_ids es.
Proof. by destruct e. Qed.

Lemma run_refines (h : json → M response) (es : list edit) (w : world) :
  (∀ m, keeps stays_quiet (h m)) →
  (∀ e w, faults w = [] → "__proto__" ∉ added_ids [e] →
          current_shapes (h (message_of e) w).2
          = reference_apply (current_shapes w) e) →
  faults w = [] → "__proto__" ∉ added_ids es →
  current_shapes (run_all h (message_of <$> es) w)
  = foldl reference_apply (current_shapes w) es.
Proof.
  intros Hquiet Hstep. revert w.
  induction es as [|e es IH]; intros w Hq Hids; [done|].
  rewrite added_ids_cons in Hids. apply not_elem_of_app in Hids as [He Hes].
  rewrite fmap_cons, run_all_cons, IH by (done || by apply Hquiet).
  simpl. by rewrite Hstep.
Qed.

(** X16.  The refinement that does hold: for edits that add no shape
    under the identifier [__proto__], the shapes read back after the
    edits are those of the reference map, in both versions. *)
Theorem edits_refine_reference (es : list edit) :
  "__proto__" ∉ added_ids es →
  current_shapes (run_all Part000.handleUserEvent (message_of <$> es) initial)
  = reference_run es
  ∧ current_shapes (run_all ServerJs.handleUserEvent (message_of <$> es) initial)
    = reference_run es.
Proof.
  intros Hids. split.
  - by apply (run_refines _ es initial
                Part000_handle_quiet Part000_edit_refines).
  - by apply (run_refines _ es initial
                ServerJs_handle_quiet ServerJs_edit_refines).
Qed.

Lemma edits_refine_reference_witness :
  let es := [AddShape "a" (JNum 1); AddShape "b" (JNum 2);
             RemoveShape "a"; Clear; AddShape "c" (JNum 3)] in
  current_shapes (run_all Part000.handleUserEvent (message_of <$> es) initial)
  = {[ "c" := JNum 3 ]}.
Proof.
  intros es.
  destruct (edits_refine_reference es) as [HP _].
  - apply (bool_decide_unpack _). by vm_compute.
  - rewrite HP. by vm_compute.
Defined.

(** C5 fails on one identifier: an [addShape] of a shape under
    [__proto__], served from an empty store, is acknowledged and stores
    nothing, in both versions, where the reference map gains an entry. *)
Theorem addShape_proto_not_stored :
  let shape := JObj {[ "x" := JNum 1 ]} in
  let es := [AddShape "__proto__" shape] in
  (Part000.handleUserEvent (addShape "__proto__" shape) initial).1 = inr Success
  ∧ current_shapes (run_all Part000.handleUserEvent (message_of <$> es) initial) = ∅
  ∧ current_shapes (run_all ServerJs.handleUserEvent (message_of <$> es) initial) = ∅
  ∧ reference_run es = {[ "__proto__" := shape ]}
  ∧ reference_run es ≠ ∅.
Proof.
  intros shape es. split_and!; by vm_compute.
Qed.

(** ** Failing calls *)

Lemma accounted_ret {A : Type} (a : A) : accounted (mret a).
Proof. intros w. exists []. by split. Qed.

Lemma accounted_lift {A : Type} (r : exn + A) : accounted (lift r).
Proof. intros w. exists []. by split. Qed.

Lemma accounted_call : accounted call.
Proof.
  intros [sh bg u q o [|[] fs]].
  - exists []. by split.
  - exists [true]. by split.
  - exists [false]. split; [done|]. intros _ _. by repeat constructor.
Qed.

Lemma accounted_bind {A B : Type} (c : M A) (k : A → M B) :
  accounted c → (∀ a, accounted (k a)) → accounted (c ≫= k).
Proof.
  intros Hc Hk w. destruct (Hc w) as (pre1 & Hpre1 & Hok1).
  unfold mbind, M_bind. destruct (c w) as [[e|a] w1]; simpl in *.
  - exists pre1. by split.
  - destruct (Hk a w1) as (pre2 & Hpre2 & Hok2).
    exists (pre1 ++ pre2). split.
    + by rewrite <- app_assoc, <- Hpre2.
    + intros b Hb. apply Forall_app. split; [by eapply Hok1 | by eapply Hok2].
Qed.

Lemma accounted_name_is (s : string) (m : json) : accounted (name_is s m).
Proof. apply accounted_bind; [apply accounted_lift | intros v; apply accounted_ret]. Qed.

(** Every external call is [call] followed by a change of the world that
    leaves the schedule alone. *)
Lemma accounted_external {A : Type} (k : M A) :
  (∀ w, faults (k w).2 = faults w ∧ ∃ a, (k w).1 = inr a) →
  accounted (call;; k).
Proof.
  intros Hk. apply accounted_bind; [apply accounted_call|]. intros _ w.
  exists []. simpl. split; [by rewrite (proj1 (Hk w)) | done].
Qed.

(** A computation that consumed a rejection has raised, and what its
    [catch] block raises leaves the block. *)
Lemma rejected_call_raises {R : Type} (c : M R) (e0 : exn) (w : world) :
  accounted c →
  let res := try_catch c (λ _, throw e0) w in
  ∃ pre, faults w = pre ++ faults res.2
         ∧ (true ∈ pre → res.1 = inl e0).
Proof.
  intros Hc res. subst res. destruct (Hc w) as (pre & Hpre & Hok).
  exists pre. unfold try_catch, throw. destruct (c w) as [[e|a] w1]; simpl in *.
  - by split.
  - split; [done|]. intros Htrue.
    specialize (Hok a eq_refl). rewrite Forall_forall in Hok.
    by specialize (Hok true Htrue).
Qed.

Lemma head_redis_range_0_99 {A : Type} (x : A) (l : list A) :
  head l = Some x → head (redis_range 0 99 l) = Some x.
Proof. rewrite redis_range_0_99. by destruct l. Qed.

Lemma trim_keeps_first (m : json) :
  keeps (stays_first m)
    (modify (λ w, set_eventQueue (redis_range 0 99 (eventQueue w)) w)).
Proof. intros [sh bg u q o fs] Hfirst. by apply head_redis_range_0_99. Qed.

(** The calls of an edit, in order: the push on the log, the trim of the
    log, two calls to the store, the broadcast.  When only the broadcast
    is rejected the store and the log are as if it had not been. *)
Lemma Part000_broadcast_rejected (e : edit) (w : world) (fs : list bool) :
  faults w = [false; false; false; false; true] ++ fs →
  let res := Part000.handleUserEvent (message_of e) w in
  let done := (Part000.handleUserEvent (message_of e) (set_faults [] w)).2 in
  res.1 = inl RangeError
  ∧ shapes res.2 = shapes done ∧ background res.2 = background done
  ∧ eventQueue res.2 = eventQueue done.
Proof.
  intros Hfs res done. subst res done.
  destruct w as [sh bg u q o f]. simpl in Hfs. subst f.
  destruct e as [id shape|id|]; simpl message_of.
  - rewrite (Part000_handle_add (addShape id shape)
               (Some (JArr [JStr id; shape])) (Some (JStr id)) (Some shape) id
               (set_faults [] _)) by done.
    unfold Part000.handleUserEvent.
    dispatch (event_name_addShape id shape). rewrite get_data_addShape.
    exec. simpl destructure2. exec. simpl ToPropertyKey. exec.
    by rewrite redis_range_0_99.
  - rewrite (Part000_handle_remove (removeShape id) (Some (JStr id)) id
               (set_faults [] _)) by done.
    unfold Part000.handleUserEvent.
    dispatch (event_name_removeShape id). rewrite get_data_removeShape.
    exec. simpl ToPropertyKey. exec.
    by rewrite redis_range_0_99, stringify_delete.
  - rewrite (Part000_handle_clear clear (set_faults [] _)) by done.
    unfold Part000.handleUserEvent.
    dispatch event_name_clear. exec. by rewrite redis_range_0_99.
Qed.

(** C7, as the code has it: an edit one of whose calls is rejected is not
    acknowledged as a success.  When the rejected call is the first one,
    the push on the log, the state is left as it was; once the push has
    gone through the event is at the head of the log whatever happens
    next; and when the rejected call is the broadcast of an edit, shapes,
    background and log are changed as by the edit that succeeds. *)
Theorem failed_edit_keeps_partial_effects (m : json) (w : world) :
  let res := Part000.handleUserEvent m w in
  (∃ pre, faults w = pre ++ faults res.2
          ∧ (true ∈ pre → res.1 ≠ inr Success))
  ∧ (∀ fs, faults w = true :: fs →
       res.1 ≠ inr Success ∧ res.2 = set_faults fs w)
  ∧ (head (faults w) ≠ Some true → head (eventQueue res.2) = Some m)
  ∧ (∀ e fs,
       m = message_of e →
       faults w = [false; false; false; false; true] ++ fs →
       let done := (Part000.handleUserEvent m (set_faults [] w)).2 in
       res.1 ≠ inr Success
       ∧ shapes res.2 = shapes done ∧ background res.2 = background done
       ∧ eventQueue res.2 = eventQueue done).
Proof.
  intros res. subst res. split_and!.
  - unfold Part000.handleUserEvent, res_fail.
    match goal with
    | |- ∃ pre, _ = pre ++ faults (try_catch ?c _ _).2 ∧ _ =>
        assert (accounted c) as Hc
    end.
    { unfold redis_get_shapes, redis_set_shapes, redis_del_shapes,
        redis_del_background, redis_lpush_eventQueue, redis_ltrim_eventQueue,
        sendToAll, send.
      repeat first
        [ apply accounted_ret | apply accounted_lift | apply accounted_name_is
        | apply accounted_external; intros []; split; [done | by eexists]
        | apply accounted_bind; [| intros ?]
        | match goal with
          | |- accounted (if ?b then _ else _) => destruct b
          | |- accounted (let '(_, _) := ?p in _) => destruct p
          end ]. }
    destruct (rejected_call_raises _ RangeError w Hc) as (pre & Hpre & Hraise).
    exists pre. split; [done|]. intros Htrue. by rewrite (Hraise Htrue).
  - intros fs Hfs. destruct w as [sh bg u q o f]. simpl in Hfs. subst f.
    unfold Part000.handleUserEvent.
    erewrite try_catch_bind_raise by (exec; reflexivity). done.
  - intros Hfirst. unfold Part000.handleUserEvent.
    destruct w as [sh bg u q o [|[] fs]]; [|done|];
      (erewrite try_catch_bind_ok by (exec; reflexivity));
      match goal with
      | |- head (eventQueue (try_catch ?c ?h ?w1).2) = _ =>
          assert (keeps (stays_first m) (try_catch c h)) as Hkeep
            by (keeps_all; apply trim_keeps_first);
          by apply (Hkeep w1)
      end.
  - intros e fs -> Hfs.
    destruct (Part000_broadcast_rejected e w fs Hfs) as (Hres & Hrest).
    split; [by rewrite Hres | done].
Qed.

Lemma failed_edit_keeps_partial_effects_witness :
  let m := removeShape "a" in
  let w := set_faults [false; false; false; true] initial in
  (Part000.handleUserEvent m w).1 ≠ inr Success
  ∧ head (eventQueue (Part000.handleUserEvent m w).2) = Some m.
Proof.
  intros m w.
  destruct (failed_edit_keeps_partial_effects m w)
    as ((pre & Hpre & Hfail) & _ & Hlogged & _).
  split.
  - apply Hfail.
    assert (faults (Part000.handleUserEvent m w).2 = []) as Hafter
      by (by vm_compute).
    rewrite Hafter, app_nil_r in Hpre. rewrite <- Hpre.
    apply (bool_decide_unpack _). by vm_compute.
  - apply Hlogged. vm_compute. discriminate.
Defined.

(** C7, refuted as stated: the store rejects the read of the shapes of
    an [addShape]: the edit fails, no shape is stored, and the event is
    in the log all the same; the service rejects the broadcast: the edit
    fails and the shape is stored. *)
Lemma failed_edit_counterexample :
  let m := addShape "a" (JObj {[ "x" := JNum 1 ]}) in
  let r1 := Part000.handleUserEvent m (set_faults [false; false; true] initial) in
  let r2 := Part000.handleUserEvent m
              (set_faults [false; false; false; false; true] initial) in
  (r1.1 = inl RangeError ∧ current_shapes r1.2 = ∅ ∧ eventQueue r1.2 = [m]
   ∧ eventQueue r1.2 ≠ eventQueue initial)
  ∧ (r2.1 = inl RangeError
     ∧ current_shapes r2.2 = {[ "a" := JObj {[ "x" := JNum 1 ]} ]}
     ∧ current_shapes r2.2 ≠ current_shapes initial).
Proof. split; split_and!; by vm_compute. Qed.

(** * More of the handlers *)

#[global] Instance same_outbox_preorder : PreOrder same_outbox.
Proof. split; [done|]. unfold same_outbox. intros w1 w2 w3. congruence. Qed.

#[global] Instance same_board_preorder : PreOrder same_board.
Proof.
  split; [done|]. intros w1 w2 w3 (?&?&?) (?&?&?).
  unfold same_board. split_and!; congruence.
Qed.

#[global] Instance same_state_preorder : PreOrder same_state.
Proof.
  split; [done|]. intros w1 w2 w3 (?&?&?&?&?) (?&?&?&?&?).
  unfold same_state. split_and!; congruence.
Qed.

#[global] Instance same_but_background_preorder : PreOrder same_but_background.
Proof.
  split; [done|]. intros w1 w2 w3 (?&?&?) (?&?&?).
  unfold same_but_background. split_and!; congruence.
Qed.

(** ** Outcomes, step by step *)

Lemma outcome_ret {A : Type} (a : A) (w : world) (Q : exn + A → world → Prop) :
  Q (inr a) w → outcome (mret a) w Q.
Proof. done. Qed.

Lemma outcome_lift {A : Type} (r : exn + A) (w : world) (Q : exn + A → world → Prop) :
  Q r w → outcome (lift r) w Q.
Proof. done. Qed.

Lemma outcome_bind {A B : Type} (c : M A) (k : A → M B) (w : world)
    (Q : exn + B → world → Prop) :
  outcome c w (λ r w1, match r with
                       | inl e => Q (inl e) w1
                       | inr a => outcome (k a) w1 Q
                       end) →
  outcome (c ≫= k) w Q.
Proof.
  unfold outcome, mbind, M_bind. by destruct (c w) as [[e|a] w1].
Qed.

Lemma outcome_try_catch {A : Type} (c : M A) (h : exn → M A) (w : world)
    (Q : exn + A → world → Prop) :
  outcome c w (λ r w1, match r with
                       | inl e => outcome (h e) w1 Q
                       | inr a => Q (inr a) w1
                       end) →
  outcome (try_catch c h) w Q.
Proof.
  unfold outcome, try_catch. by destruct (c w) as [[e|a] w1].
Qed.

Lemma outcome_keeps {A : Type} (R : relation world) (c : M A) (w : world)
    (Q : exn + A → world → Prop) :
  keeps R c → (∀ r w1, R w w1 → Q r w1) → outcome c w Q.
Proof. intros Hc HQ. apply HQ, Hc. Qed.

(** The three outcomes of an external call. *)
Lemma outcome_call (w : world) (Q : exn + unit → world → Prop) :
  (faults w = [] → Q (inr ()) w) →
  (∀ fs, faults w = false :: fs → Q (inr ()) (set_faults fs w)) →
  (∀ fs, faults w = true :: fs → Q (inl IOError) (set_faults fs w)) →
  outcome call w Q.
Proof.
  intros Hnone Hok Hrej. unfold outcome, call.
  destruct w as [sh bg u q o [|[] fs]]; simpl in *; auto.
Qed.

(** X1: an event is broadcast exactly when it is acknowledged.  Whatever
    the event and whichever calls are rejected, the version with the log
    either answers [success], and has handed the event to the group, once
    and as it came, or answers nothing, its [catch] block raising, and
    has handed nothing to the service; [server.js] never hands anything
    to the service. *)
Theorem broadcast_iff_acknowledged (m : json) (w : world) :
  let res := Part000.handleUserEvent m w in
  (res.1 = inr Success ∨ res.1 = inl RangeError)
  ∧ (res.1 = inr Success → outbox res.2 = outbox w ++ [(ToGroup "draw", m)])
  ∧ (res.1 = inl RangeError → outbox res.2 = outbox w)
  ∧ outbox (ServerJs.handleUserEvent m w).2 = outbox w.
Proof.
  intros res.
  assert (keeps same_outbox (ServerJs.handleUserEvent m)) as HS
    by (unfold ServerJs.handleUserEvent; keeps_all).
  cut (outcome (Part000.handleUserEvent m) w
         (λ r w1, (r = inr Success ∨ r = inl RangeError)
                  ∧ (r = inr Success → outbox w1 = outbox w ++ [(ToGroup "draw", m)])
                  ∧ (r = inl RangeError → outbox w1 = outbox w))).
  { intros (?&?&?). split_and!; try done. apply HS. }
  unfold Part000.handleUserEvent.
  apply outcome_try_catch.
  do 3 (apply outcome_bind, (outcome_keeps same_outbox); [keeps_all|];
        intros [e|?] ? <-; [by split_and!; [right| |]|]).
  apply outcome_bind. unfold sendToAll, send.
  apply outcome_bind, outcome_call.
  all: intros; destruct w2; unfold outcome; simpl.
  all: split_and!; first [done | by left | by right].
Qed.

Lemma broadcast_iff_acknowledged_witness :
  let m := addShape "a" (JNum 1) in
  outbox (Part000.handleUserEvent m initial).2 = [(ToGroup "draw", m)]
  ∧ outbox (Part000.handleUserEvent m (set_faults [false; false; true] initial)).2 = [].
Proof.
  intros m. split.
  - destruct (broadcast_iff_acknowledged m initial) as (_ & Hok & _).
    apply Hok. by vm_compute.
  - destruct (broadcast_iff_acknowledged m (set_faults [false; false; true] initial))
      as (_ & _ & Hfail & _).
    apply Hfail. by vm_compute.
Defined.

Lemma Part000_trimmed (m : json) (w : world) (fs : list bool) :
  faults w = [] ∨ faults w = [false] ∨ faults w = false :: false :: fs →
  eventQueue (Part000.handleUserEvent m w).2 = take 100 (m :: eventQueue w).
Proof.
  intros Hf. unfold Part000.handleUserEvent.
  destruct w as [sh bg u q o f]. simpl in Hf.
  destruct Hf as [-> | [-> | ->]].
  all: erewrite try_catch_bind_ok by (exec; reflexivity).
  all: erewrite try_catch_bind_ok
         by (exec; rewrite redis_range_0_99; reflexivity).
  all: match goal with
       | |- eventQueue (try_catch ?c ?h ?w1).2 = _ =>
           assert (keeps same_queue (try_catch c h)) as Hkeep by keeps_all;
           by rewrite (Hkeep w1)
       end.
Qed.

(** X2: an acknowledged event leaves the log trimmed.  Whatever the
    length of the log before and whichever calls are rejected, when the
    answer is [success] the log is the event followed by the old log, cut
    after 100 elements.  When the push goes through and the trim is
    rejected, nothing is answered and the log is left one longer than it
    was, untrimmed. *)
Theorem acknowledged_event_trims_log (m : json) (w : world) :
  let res := Part000.handleUserEvent m w in
  (res.1 = inr Success →
   eventQueue res.2 = take 100 (m :: eventQueue w)
   ∧ (length (eventQueue res.2) ≤ 100)%nat)
  ∧ (∀ fs, faults w = false :: true :: fs →
     res = (inl RangeError,
            set_faults fs (set_eventQueue (m :: eventQueue w) w))).
Proof.
  intros res. subst res.
  assert (∀ fs,
            faults w = [] ∨ faults w = [false] ∨ faults w = false :: false :: fs →
            eventQueue (Part000.handleUserEvent m w).2 = take 100 (m :: eventQueue w)
            ∧ (length (eventQueue (Part000.handleUserEvent m w).2) ≤ 100)%nat)
    as Htrimmed.
  { intros fs Hf. rewrite (Part000_trimmed m w fs Hf).
    split; [done|]. rewrite length_take. lia. }
  destruct (faults w) as [|b1 f] eqn:Hfaults.
  - split; [|by intros fs [=]]. intros _. apply (Htrimmed []). auto.
  - destruct b1.
    + split; [|by intros fs [=]]. intros Hok. exfalso. revert Hok.
      unfold Part000.handleUserEvent. destruct w as [sh bg u q o f0].
      simpl in Hfaults. subst f0.
      by erewrite try_catch_bind_raise by (exec; reflexivity).
    + destruct f as [|b2 f].
      * split; [|by intros fs [=]]. intros _. apply (Htrimmed []). auto.
      * destruct b2.
        -- assert (Part000.handleUserEvent m w
                   = (inl RangeError,
                      set_faults f (set_eventQueue (m :: eventQueue w) w)))
             as ->.
           { unfold Part000.handleUserEvent. destruct w as [sh bg u q o f0].
             simpl in Hfaults. subst f0.
             erewrite try_catch_bind_ok by (exec; reflexivity).
             by erewrite try_catch_bind_raise by (exec; reflexivity). }
           split; [intros [=] | by intros fs [= <-]].
        -- split; [|by intros fs [=]]. intros _. apply (Htrimmed f). auto.
Qed.

Lemma acknowledged_event_trims_log_witness :
  let w := set_faults [false; true]
             (set_eventQueue (replicate 100 clear) initial) in
  length (eventQueue (Part000.handleUserEvent clear w).2) = 101%nat
  ∧ (length (eventQueue (Part000.handleUserEvent clear
                            (set_eventQueue (replicate 100 clear) initial)).2)
     ≤ 100)%nat.
Proof.
  intros w. split.
  - destruct (acknowledged_event_trims_log clear w) as [_ Hrejected].
    rewrite (Hrejected []) by reflexivity. reflexivity.
  - destruct (acknowledged_event_trims_log clear
                (set_eventQueue (replicate 100 clear) initial)) as [Hok _].
    apply Hok. by vm_compute.
Defined.

(** X3: an [addShape] whose payload cannot be taken apart (it is absent,
    [null], a number, a boolean or an object) stores nothing and is not
    answered: the error is caught and the [catch] block raises in its
    turn.  [server.js] leaves the world as it was; the version with the
    log has pushed the event on the log before it finds out, and
    broadcasts nothing. *)
Theorem addShape_without_pair_fails (m : json) (d : value) (e : exn) (w : world) :
  event_name m = Some "addShape" → get_field "data" m = inr d →
  destructure2 d = inl e →
  ServerJs.handleUserEvent m w = (inl RangeError, w)
  ∧ (faults w = [] →
     Part000.handleUserEvent m w =
       (inl RangeError, set_eventQueue (take 100 (m :: eventQueue w)) w)).
Proof.
  intros Hname Hdata Hpair. split.
  - unfold ServerJs.handleUserEvent. dispatch_switch Hname.
    rewrite Hdata. exec. by rewrite Hpair.
  - intros Hq. unfold Part000.handleUserEvent.
    dispatch Hname. rewrite Hdata. quiet w Hq. exec.
    rewrite Hpair. exec. by rewrite redis_range_0_99.
Qed.

Lemma addShape_without_pair_fails_witness :
  let m := JObj {[ "name" := JStr "addShape"; "data" := JNum 7 ]} in
  ServerJs.handleUserEvent m initial = (inl RangeError, initial)
  ∧ Part000.handleUserEvent m initial
    = (inl RangeError, set_eventQueue [m] initial).
Proof.
  intros m.
  destruct (addShape_without_pair_fails m (Some (JNum 7)) TypeError initial)
    as [HS HP]; [reflexivity | reflexivity | reflexivity |].
  split; [exact HS|]. rewrite HP by reflexivity. reflexivity.
Defined.

(** X4: an [addShape] whose payload is an array of one string, an
    identifier and no shape, removes the shape stored under that
    identifier: the property is assigned [undefined], which is not
    written back.  Both versions acknowledge it. *)
Theorem addShape_without_shape_removes (m : json) (id : string) (w : world) :
  faults w = [] → event_name m = Some "addShape" →
  get_field "data" m = inr (Some (JArr [JStr id])) →
  id ≠ "__proto__" →
  let rP := Part000.handleUserEvent m w in
  let rS := ServerJs.handleUserEvent m w in
  rP.1 = inr Success ∧ rS.1 = inr Success
  ∧ current_shapes rP.2 = delete id (current_shapes w)
  ∧ current_shapes rS.2 = delete id (current_shapes w).
Proof.
  intros Hq Hname Hdata Hkey rP rS. subst rP rS.
  rewrite (Part000_handle_add m (Some (JArr [JStr id])) (Some (JStr id))
             undefined id),
    (ServerJs_handle_add m (Some (JArr [JStr id])) (Some (JStr id))
       undefined id) by done.
  unfold current_shapes. simpl.
  rewrite stringify_assign_undefined by done. by destruct w.
Qed.

Lemma addShape_without_shape_removes_witness :
  let m := JObj {[ "name" := JStr "addShape"; "data" := JArr [JStr "a"] ]} in
  let w := set_shapes (Some {[ "a" := JNum 1; "b" := JNum 2 ]}) initial in
  current_shapes (Part000.handleUserEvent m w).2 = {[ "b" := JNum 2 ]}.
Proof.
  intros m w.
  destruct (addShape_without_shape_removes m "a" w) as (_ & _ & HP & _);
    [reflexivity | reflexivity | reflexivity | done |].
  rewrite HP. by vm_compute.
Defined.

(** X5: a shape that was added reaches whoever joins next.  After an
    [addShape] under an identifier other than [__proto__], the shape is
    stored under that identifier, the other identifiers hold what they
    held, and the snapshot sent to the next connection has the shape. *)
Theorem added_shape_reaches_joiner (id : string) (shape : json)
    (userId : string) (w : world) :
  faults w = [] → id ≠ "__proto__" →
  let w1 := (Part000.handleUserEvent (addShape id shape) w).2 in
  current_shapes w1 !! id = Some shape
  ∧ (∀ id', id' ≠ id → current_shapes w1 !! id' = current_shapes w !! id')
  ∧ (ToUser userId,
     syncState (<[id := shape]> (current_shapes w)) (current_background w))
    ∈ outbox (Part000.onConnected userId w1).2.
Proof.
  intros Hq Hid w1.
  assert (faults w1 = []) as Hq1 by (by apply Part000_handle_quiet).
  assert (current_shapes w1 = <[id := shape]> (current_shapes w)
          ∧ current_background w1 = current_background w) as [Hshapes Hbg].
  { subst w1.
    rewrite (Part000_handle_add (addShape id shape)
               (Some (JArr [JStr id; shape])) (Some (JStr id)) (Some shape) id)
      by done.
    unfold current_shapes, current_background. simpl.
    rewrite stringify_assign by done. by destruct w. }
  split_and!.
  - by rewrite Hshapes, lookup_insert_eq.
  - intros id' Hne. by rewrite Hshapes, lookup_insert_ne.
  - rewrite Part000_connected by done. rewrite Hshapes, Hbg.
    destruct w1; simpl. apply elem_of_app. right.
    apply elem_of_cons. right. apply elem_of_cons. by left.
Qed.

Lemma added_shape_reaches_joiner_witness :
  (ToUser "u", syncState {[ "a" := JNum 1 ]} (JObj ∅))
  ∈ outbox (Part000.onConnected "u"
              (Part000.handleUserEvent (addShape "a" (JNum 1)) initial).2).2.
Proof.
  destruct (added_shape_reaches_joiner "a" (JNum 1) "u" initial)
    as (_ & _ & Hsent); [reflexivity | done |].
  exact Hsent.
Defined.

(** ** Connections under failing calls *)

(** X6: the clamp of the counter is two calls, and the second may be
    rejected.  In the version with the log, when the decrement goes
    through and the [set] is rejected, the store keeps the decremented
    count, negative if the count was 0 or less, and nothing is broadcast;
    so does [server.js] whenever it clamps. *)
Theorem rejected_set_leaves_decrement (w : world) (fs : list bool) :
  faults w = false :: true :: fs →
  Part000.onDisconnected w = (inr (), set_faults fs (set_users (users w - 1) w))
  ∧ (users w ≤ 0 →
     ServerJs.onDisconnected w
     = (inr (), set_faults fs (set_users (users w - 1) w))).
Proof.
  intros Hf. destruct w as [sh bg u q o f]. simpl in Hf. subst f. split.
  - done.
  - simpl. intros Hu. unfold ServerJs.onDisconnected. exec.
    rewrite bool_decide_eq_true_2 by lia. done.
Qed.

Lemma rejected_set_leaves_decrement_witness :
  users (Part000.onDisconnected (set_faults [false; true] initial)).2 = -1
  ∧ users (ServerJs.onDisconnected (set_faults [false; true] initial)).2 = -1.
Proof.
  destruct (rejected_set_leaves_decrement (set_faults [false; true] initial) [])
    as [HP HS]; [reflexivity|].
  split.
  - rewrite HP. reflexivity.
  - rewrite HS by (simpl; lia). reflexivity.
Defined.

(** X7: in [server.js] a connection that joins is never sent anything.
    Whichever calls are rejected, the handler hands the service at most
    the broadcast of the count: the snapshot is not sent, because the
    name [userId] is not declared.  It never raises, and it leaves the
    shapes, the background and the log alone. *)
Theorem server_js_sends_no_snapshot (w : world) :
  let res := ServerJs.onConnected w in
  res.1 = inr ()
  ∧ (outbox res.2 = outbox w
     ∨ outbox res.2 = outbox w ++ [(ToGroup "draw", updateUser (users w + 1))])
  ∧ (∀ userId m, (ToUser userId, m) ∈ outbox res.2 → (ToUser userId, m) ∈ outbox w)
  ∧ same_board w res.2.
Proof.
  intros res. subst res. unfold ServerJs.onConnected.
  destruct w as [sh bg u q o f].
  destruct f as [|[] [|[] [|[] [|[] f]]]]; exec; split_and!; try done; auto.
  all: intros userId m [Hin | Hin%list_elem_of_singleton]%elem_of_app;
    [done | by inversion Hin].
Qed.





(** X9: connections and disconnections never touch the board.  In both
    versions, whichever calls are rejected, [onConnected] and
    [onDisconnected] return normally (they swallow every error) and leave
    the shapes, the background and the log as they were. *)
Theorem presence_leaves_board (op : presence_op) (w : world) :
  same_board w (Part000_presence op w).2
  ∧ same_board w (ServerJs_presence op w).2
  ∧ (Part000_presence op w).1 = inr ()
  ∧ (ServerJs_presence op w).1 = inr ().
Proof.
  assert (∀ (c : M unit) w,
            (try_catch c (λ _, mret ()) w).1 = inr ()) as Hswallow.
  { intros c w0. unfold try_catch. by destruct (c w0) as [[e|[]] w1]. }
  assert (keeps same_board (Part000_presence op)) as HP
    by (destruct op; simpl; unfold Part000.onConnected, Part000.onDisconnected,
          Part000.replayMissedEvents; keeps_all).
  assert (keeps same_board (ServerJs_presence op)) as HS
    by (destruct op; simpl; unfold ServerJs.onConnected, ServerJs.onDisconnected;
          keeps_all).
  split_and!; [apply HP | apply HS | |]; destruct op; apply Hswallow.
Qed.

(** * The routes *)

Lemma Buffer_from_numbers_bytes (bs : list Byte.byte) :
  Buffer_from_numbers (Some (JArr (json_of_byte <$> bs))) = inr bs.
Proof.
  unfold Buffer_from_numbers.
  assert (mapM (λ x, match x with
                     | JNum n => Byte.of_N (Z.to_N (n `mod` 256))
                     | _ => None
                     end) (json_of_byte <$> bs) = Some bs) as ->; [|done].
  apply mapM_Some. induction bs as [|b bs IH]; constructor; [|done].
  unfold json_of_byte. pose proof (Byte.to_N_bounded b) as Hb.
  rewrite Z.mod_small by lia. rewrite N2Z.id. apply Byte.of_to_N.
Qed.

Lemma res_type_strings_string (s : string) : res_type_strings (Some (JStr s)) = inr ().
Proof. done. Qed.

Lemma background_record_id id f :
  get_field "id" (background_record id f) = inr (Some (JStr id)).
Proof. done. Qed.

Lemma background_record_contentType id f :
  get_field "contentType" (background_record id f)
  = inr (Some (JStr (file_mimetype f))).
Proof. done. Qed.

Lemma background_record_data id f :
  get_field "data" (background_record id f) = inr (Some (Buffer_toJSON (file_data f))).
Proof. done. Qed.

Lemma Buffer_toJSON_data (data : list Byte.byte) :
  get_property "data" (Some (Buffer_toJSON data))
  = inr (Some (JArr (json_of_byte <$> data))).
Proof. done. Qed.

Lemma diagram_quiet (w : world) :
  faults w = [] →
  Routes.diagram w
  = (inr (ResJson (JObj {[ "shapes" := JObj (current_shapes w);
                           "background" := current_background w ]})), w).
Proof. intros Hq. unfold Routes.diagram. by quiet w Hq. Qed.

Lemma upload_quiet (id : string) (f : upload) (w : world) :
  faults w = [] →
  Routes.uploadBackground id (Some f) w
  = (inr ResEnd,
     set_outbox (outbox w ++ [(ToGroup "draw", updateBackground id)])
       (set_background (Some (background_record id f)) w)).
Proof.
  intros Hq. unfold Routes.uploadBackground, redis_set_background. by quiet w Hq.
Qed.

Section routes.

Variable Buffer_from : value → exn + list Byte.byte.
Variable res_type : value → exn + unit.

Lemma getBackground_absent (id : string) (w : world) :
  faults w = [] → background w = None →
  Routes.getBackground Buffer_from res_type id w = (inr (ResStatus 404 None), w).
Proof.
  intros Hq Hbg. unfold Routes.getBackground.
  quiet w Hq. simpl in Hbg. subst. by exec.
Qed.

Lemma getBackground_other (id id' : string) (f : upload) (w : world) :
  faults w = [] → background w = Some (background_record id f) → id' ≠ id →
  Routes.getBackground Buffer_from res_type id' w = (inr (ResStatus 404 None), w).
Proof.
  intros Hq Hbg Hne. unfold Routes.getBackground.
  quiet w Hq. simpl in Hbg. subst. exec.
  change (default (JObj ∅) (Some (background_record id f)))
    with (background_record id f).
  rewrite background_record_id. unfold is_string.
  by rewrite bool_decide_eq_false_2.
Qed.

Hypothesis Buffer_from_bytes :
  ∀ bs, Buffer_from (Some (JArr (json_of_byte <$> bs))) = inr bs.
Hypothesis res_type_string : ∀ s, res_type (Some (JStr s)) = inr ().

Lemma getBackground_stored (id : string) (f : upload) (w : world) :
  faults w = [] → background w = Some (background_record id f) →
  Routes.getBackground Buffer_from res_type id w
  = (inr (ResFile (Some (JStr (file_mimetype f))) (file_data f)), w).
Proof.
  intros Hq Hbg. unfold Routes.getBackground.
  quiet w Hq. simpl in Hbg. subst. exec.
  change (default (JObj ∅) (Some (background_record id f)))
    with (background_record id f).
  rewrite background_record_id. unfold is_string.
  rewrite bool_decide_eq_true_2 by done.
  rewrite background_record_contentType, res_type_string.
  rewrite background_record_data, Buffer_toJSON_data, Buffer_from_bytes.
  done.
Qed.

End routes.

Section route_properties.

Variable Buffer_from : value → exn + list Byte.byte.
Variable res_type : value → exn + unit.

Hypothesis Buffer_from_bytes :
  ∀ bs, Buffer_from (Some (JArr (json_of_byte <$> bs))) = inr bs.
Hypothesis res_type_string : ∀ s, res_type (Some (JStr s)) = inr ().

(** X10: what is uploaded is what is served.  With [Buffer.from] giving
    back the bytes of an array of bytes and [res.type] accepting a
    string, and no call failing: an upload stores the record, tells the
    group the new identifier and ends the response; asking for the
    background under that identifier then answers the bytes and the type
    that were uploaded; asking under any other identifier, that of an
    earlier upload included, answers 404. *)
Theorem upload_then_get (id : string) (f : upload) (w : world) :
  faults w = [] →
  let up := Routes.uploadBackground id (Some f) w in
  up = (inr ResEnd,
        set_outbox (outbox w ++ [(ToGroup "draw", updateBackground id)])
          (set_background (Some (background_record id f)) w))
  ∧ Routes.getBackground Buffer_from res_type id up.2
    = (inr (ResFile (Some (JStr (file_mimetype f))) (file_data f)), up.2)
  ∧ (∀ id', id' ≠ id →
     Routes.getBackground Buffer_from res_type id' up.2
     = (inr (ResStatus 404 None), up.2)).
Proof.
  intros Hq up. subst up. rewrite upload_quiet by done. split_and!.
  - done.
  - apply getBackground_stored; by destruct w.
  - intros id' Hne. apply (getBackground_other _ _ id id' f); by destruct w.
Qed.

(** X11: after a [clear] nothing is left to fetch.  Once an event named
    [clear] has been served with no call failing, the background is not
    found under any identifier, whatever [Buffer.from] and [res.type]
    do, and the diagram is empty. *)
Theorem cleared_board_is_empty (m : json) (id : string) (w : world) :
  faults w = [] → event_name m = Some "clear" →
  let w1 := (Part000.handleUserEvent m w).2 in
  Routes.getBackground Buffer_from res_type id w1 = (inr (ResStatus 404 None), w1)
  ∧ Routes.diagram w1
    = (inr (ResJson (JObj {[ "shapes" := JObj ∅; "background" := JObj ∅ ]})), w1).
Proof.
  intros Hq Hname w1. subst w1. rewrite Part000_handle_clear by done. split.
  - apply getBackground_absent; by destruct w.
  - rewrite diagram_quiet by (by destruct w). by destruct w.
Qed.

(** X13: the routes that read do not write.  Whichever calls are
    rejected, [/negotiate], [/diagram] and [/background/:id] leave the
    shapes, the background, the counter, the log and what was sent as
    they were; and each answers 500 when its first call is rejected. *)
Theorem reading_routes_do_not_write (url id : string) (w : world) :
  same_state w (Routes.negotiate url w).2
  ∧ same_state w (Routes.diagram w).2
  ∧ same_state w (Routes.getBackground Buffer_from res_type id w).2
  ∧ (∀ fs, faults w = true :: fs →
     Routes.negotiate url w
     = (inr (ResStatus 500 (Some "Failed to negotiate.")), set_faults fs w)
     ∧ Routes.diagram w
       = (inr (ResStatus 500 (Some "Failed to retrieve diagram.")), set_faults fs w)
     ∧ Routes.getBackground Buffer_from res_type id w
       = (inr (ResStatus 500 (Some "Failed to retrieve background.")),
          set_faults fs w)).
Proof.
  assert (keeps same_state (Routes.negotiate url)) as Hn
    by (unfold Routes.negotiate; keeps_all).
  assert (keeps same_state Routes.diagram) as Hd
    by (unfold Routes.diagram; keeps_all).
  assert (keeps same_state (Routes.getBackground Buffer_from res_type id)) as Hg
    by (unfold Routes.getBackground; keeps_all).
  split_and!; [apply Hn | apply Hd | apply Hg |].
  intros fs Hf. destruct w as [sh bg u q o f]. simpl in Hf. subst f.
  by split_and!.
Qed.

End route_properties.

Lemma upload_then_get_witness :
  let f := Upload [Byte.x00; Byte.x7f; Byte.xff] "image/png" in
  Routes.getBackground Buffer_from_numbers res_type_strings "k3j9x0ab"
    (Routes.uploadBackground "k3j9x0ab" (Some f) initial).2
  = (inr (ResFile (Some (JStr "image/png")) [Byte.x00; Byte.x7f; Byte.xff]),
     (Routes.uploadBackground "k3j9x0ab" (Some f) initial).2).
Proof.
  intros f.
  apply (upload_then_get Buffer_from_numbers res_type_strings
           Buffer_from_numbers_bytes res_type_strings_string
           "k3j9x0ab" f initial).
  reflexivity.
Defined.

Lemma cleared_board_is_empty_witness :
  let f := Upload [Byte.x01] "image/png" in
  let w := (Routes.uploadBackground "abc" (Some f) initial).2 in
  (Routes.getBackground Buffer_from_numbers res_type_strings "abc"
     (Part000.handleUserEvent clear w).2).1
  = inr (ResStatus 404 None).
Proof.
  intros f w.
  destruct (cleared_board_is_empty Buffer_from_numbers res_type_strings
              clear "abc" w) as [Hget _]; [reflexivity | reflexivity |].
  by rewrite Hget.
Defined.

Lemma reading_routes_do_not_write_witness :
  Routes.diagram (set_faults [true] initial)
  = (inr (ResStatus 500 (Some "Failed to retrieve diagram.")), initial).
Proof.
  destruct (reading_routes_do_not_write Buffer_from_numbers res_type_strings
              "u" "i" (set_faults [true] initial)) as (_ & _ & _ & Hrej).
  destruct (Hrej []) as (_ & Hd & _); [reflexivity|]. exact Hd.
Defined.

#[global] Instance stays_unset_preorder : PreOrder stays_unset.
Proof. split; [by intros w ?|]. unfold stays_unset. intros w1 w2 w3. auto. Qed.

Lemma run_all_keeps {A R : Type} (Rel : relation world) `{!PreOrder Rel}
    (h : A → M R) (xs : list A) (w : world) :
  (∀ x, keeps Rel (h x)) → Rel w (run_all h xs w).
Proof.
  intros Hh. revert w. induction xs as [|x xs IH]; intros w; [done|].
  rewrite run_all_cons. etrans; [apply Hh | apply IH].
Qed.

(** X12: the diagram is the board the edits made.  After a sequence of
    [addShape], [removeShape] and [clear] events that adds no shape under
    [__proto__], served from the empty store with no call failing,
    [/diagram] answers the reference map of the edits as its shapes, and
    an empty background. *)
Theorem diagram_after_edits (es : list edit) :
  "__proto__" ∉ added_ids es →
  (Routes.diagram (run_all Part000.handleUserEvent (message_of <$> es) initial)).1
  = inr (ResJson (JObj {[ "shapes" := JObj (reference_run es);
                          "background" := JObj ∅ ]})).
Proof.
  intros Hids.
  set (w := run_all Part000.handleUserEvent (message_of <$> es) initial).
  assert (faults w = []) as Hq
    by (apply run_all_quiet; [apply Part000_handle_quiet | done]).
  assert (current_shapes w = reference_run es) as Hshapes
    by (by apply (run_refines _ es initial
                    Part000_handle_quiet Part000_edit_refines)).
  assert (background w = None) as Hbg.
  { apply (run_all_keeps stays_unset Part000.handleUserEvent
             (message_of <$> es) initial); [|done].
    intros m. unfold Part000.handleUserEvent. keeps_all. }
  rewrite diagram_quiet by done. simpl.
  unfold current_background. by rewrite Hshapes, Hbg.
Qed.

Lemma diagram_after_edits_witness :
  let es := [AddShape "a" (JNum 1); AddShape "b" (JNum 2); RemoveShape "a"] in
  (Routes.diagram (run_all Part000.handleUserEvent (message_of <$> es) initial)).1
  = inr (ResJson (JObj {[ "shapes" := JObj {[ "b" := JNum 2 ]};
                          "background" := JObj ∅ ]})).
Proof.
  intros es. rewrite (diagram_after_edits es).
  - by vm_compute.
  - apply (bool_decide_unpack _). by vm_compute.
Defined.

(** X14: [/diagram] answers what a joining connection is sent.  With no
    call failing, the body of the answer of [/diagram] is the [data] of
    the [syncState] message that [onConnected] sends in the same world. *)
Theorem diagram_is_the_snapshot (userId : string) (w : world) :
  faults w = [] →
  ∃ data,
    Routes.diagram w = (inr (ResJson data), w)
    ∧ (ToUser userId, JObj {[ "name" := JStr "syncState"; "data" := data ]})
      ∈ outbox (Part000.onConnected userId w).2.
Proof.
  intros Hq.
  exists (JObj {[ "shapes" := JObj (current_shapes w);
                  "background" := current_background w ]}).
  split; [by apply diagram_quiet|].
  rewrite Part000_connected by done. destruct w; simpl.
  apply elem_of_app. right. apply elem_of_cons. right. apply elem_of_cons. by left.
Qed.

Lemma diagram_is_the_snapshot_witness :
  ∃ data,
    Routes.diagram initial = (inr (ResJson data), initial)
    ∧ (ToUser "u", JObj {[ "name" := JStr "syncState"; "data" := data ]})
      ∈ outbox (Part000.onConnected "u" initial).2.
Proof. apply (diagram_is_the_snapshot "u" initial). reflexivity. Defined.

(** X15: an upload that fails.  Without a file nothing is called, stored
    or sent, and the answer is 500.  When the store takes the record and
    the broadcast is rejected, the answer is 500 too, but the record
    stays stored and clients are not told.  Whichever calls are rejected,
    an upload leaves the shapes, the counter and the log as they were. *)
Theorem upload_failures (id : string) (file : option upload) (w : world) :
  Routes.uploadBackground id None w
  = (inr (ResStatus 500 (Some "Failed to upload background.")), w)
  ∧ (∀ f fs, file = Some f → faults w = false :: true :: fs →
     Routes.uploadBackground id file w
     = (inr (ResStatus 500 (Some "Failed to upload background.")),
        set_faults fs (set_background (Some (background_record id f)) w)))
  ∧ (∀ f fs, file = Some f → faults w = true :: fs →
     Routes.uploadBackground id file w
     = (inr (ResStatus 500 (Some "Failed to upload background.")),
        set_faults fs w))
  ∧ same_but_background w (Routes.uploadBackground id file w).2.
Proof.
  split_and!.
  - by destruct w.
  - intros f fs -> Hf. destruct w as [sh bg u q o f0]. simpl in Hf. by subst f0.
  - intros f fs -> Hf. destruct w as [sh bg u q o f0]. simpl in Hf. by subst f0.
  - assert (keeps same_but_background (Routes.uploadBackground id file)) as Hk
      by (unfold Routes.uploadBackground, redis_set_background; keeps_all).
    apply Hk.
Qed.

Lemma upload_failures_witness :
  let f := Upload [Byte.x01] "image/png" in
  background (Routes.uploadBackground "abc" (Some f)
                (set_faults [false; true] initial)).2
  = Some (background_record "abc" f)
  ∧ outbox (Routes.uploadBackground "abc" (Some f)
              (set_faults [false; true] initial)).2 = [].
Proof.
  intros f.
  destruct (upload_failures "abc" (Some f) (set_faults [false; true] initial))
    as (_ & Hstored & _).
  rewrite (Hstored f []) by reflexivity. by split.
Defined.

(** * How edits compose *)

Lemma run_keeps_background (h : json → M response) (es : list edit) (w : world) :
  (∀ m, event_name m ≠ Some "clear" → keeps same_background (h m)) →
  Clear ∉ es →
  background (run_all h (message_of <$> es) w) = background w.
Proof.
  intros Hh. revert w. induction es as [|e es IH]; intros w Hclear; [done|].
  apply not_elem_of_cons in Hclear as [He Hes].
  rewrite fmap_cons, run_all_cons, IH by done.
  apply (Hh (message_of e)). by destruct e.
Qed.

(** X17: edits of different shapes commute.  For two edits that are each
    an [addShape] or a [removeShape], about different identifiers, none
    of them [__proto__], the document after the two is the same in
    whichever order they are served: the last write wins for one shape
    only.  Both versions, no call failing. *)
Theorem edits_of_distinct_shapes_commute (e1 e2 : edit) (id1 id2 : string) (w : world) :
  faults w = [] →
  edit_id e1 = Some id1 → edit_id e2 = Some id2 → id1 ≠ id2 →
  id1 ≠ "__proto__" → id2 ≠ "__proto__" →
  document (run_all Part000.handleUserEvent (message_of <$> [e1; e2]) w)
  = document (run_all Part000.handleUserEvent (message_of <$> [e2; e1]) w)
  ∧ document (run_all ServerJs.handleUserEvent (message_of <$> [e1; e2]) w)
    = document (run_all ServerJs.handleUserEvent (message_of <$> [e2; e1]) w).
Proof.
  intros Hq H1 H2 Hne Hp1 Hp2.
  assert (("__proto__" ∉ added_ids [e1; e2]) ∧ ("__proto__" ∉ added_ids [e2; e1]))
    as [Hids12 Hids21].
  { destruct e1, e2; simplify_eq/=; split;
      repeat (apply not_elem_of_cons; split; [done|]); apply not_elem_of_nil. }
  assert ((Clear ∉ [e1; e2]) ∧ (Clear ∉ [e2; e1])) as [Hc12 Hc21].
  { destruct e1, e2; simplify_eq/=; split;
      repeat (apply not_elem_of_cons; split; [done|]); apply not_elem_of_nil. }
  assert (foldl reference_apply (current_shapes w) [e1; e2]
          = foldl reference_apply (current_shapes w) [e2; e1]) as Href.
  { destruct e1, e2; simplify_eq/=.
    - by apply insert_insert_ne.
    - by rewrite delete_insert_ne.
    - by rewrite delete_insert_ne.
    - apply delete_delete. }
  unfold document. split; f_equal.
  - by rewrite !(run_refines _ _ w Part000_handle_quiet Part000_edit_refines).
  - by rewrite !(run_keeps_background _ _ w Part000_keeps_background).
  - by rewrite !(run_refines _ _ w ServerJs_handle_quiet ServerJs_edit_refines).
  - by rewrite !(run_keeps_background _ _ w ServerJs_keeps_background).
Qed.

Lemma edits_of_distinct_shapes_commute_witness :
  let e1 := AddShape "a" (JNum 1) in
  let e2 := RemoveShape "b" in
  let w := set_shapes (Some {[ "b" := JNum 2 ]}) initial in
  document (run_all Part000.handleUserEvent (message_of <$> [e1; e2]) w)
  = document (run_all Part000.handleUserEvent (message_of <$> [e2; e1]) w).
Proof.
  intros e1 e2 w.
  destruct (edits_of_distinct_shapes_commute e1 e2 "a" "b" w) as [HP _];
    [reflexivity | reflexivity | reflexivity | discriminate | discriminate
    | discriminate |].
  exact HP.
Defined.

(** X18: serving an edit twice is serving it once, as far as the document
    goes.  For an [addShape] (not under [__proto__]), a [removeShape] or
    a [clear], the shapes read back after the edit is served twice in a
    row are those after it is served once.  Both versions, no call
    failing. *)
Theorem edit_twice_is_once (e : edit) (w : world) :
  faults w = [] → "__proto__" ∉ added_ids [e] →
  current_shapes (run_all Part000.handleUserEvent (message_of <$> [e; e]) w)
  = current_shapes (run_all Part000.handleUserEvent (message_of <$> [e]) w)
  ∧ current_shapes (run_all ServerJs.handleUserEvent (message_of <$> [e; e]) w)
    = current_shapes (run_all ServerJs.handleUserEvent (message_of <$> [e]) w).
Proof.
  intros Hq Hid.
  assert ("__proto__" ∉ added_ids [e; e]) as Hids
    by (rewrite added_ids_cons; by apply not_elem_of_app).
  assert (foldl reference_apply (current_shapes w) [e; e]
          = foldl reference_apply (current_shapes w) [e]) as Href.
  { destruct e; simpl.
    - apply insert_insert_eq.
    - apply delete_delete_eq.
    - done. }
  split.
  - by rewrite !(run_refines _ _ w Part000_handle_quiet Part000_edit_refines).
  - by rewrite !(run_refines _ _ w ServerJs_handle_quiet ServerJs_edit_refines).
Qed.

Lemma edit_twice_is_once_witness :
  let e := AddShape "a" (JNum 1) in
  current_shapes (run_all Part000.handleUserEvent (message_of <$> [e; e]) initial)
  = current_shapes (run_all Part000.handleUserEvent (message_of <$> [e]) initial).
Proof.
  intros e.
  destruct (edit_twice_is_once e initial) as [HP _];
    [reflexivity | apply (bool_decide_unpack _); by vm_compute |].
  exact HP.
Defined.
